(** * The board and state engine of the Penguins plugin

    A shallow embedding of [socha/api/plugin/penguins.py]: the coordinate
    algebra, the bit-mask [Board], the value records built from it and the
    [GameState] transition logic, followed by the properties established
    about them.

    Python integers are unbounded, so every integer (coordinates, linear
    indices, bit masks, turn numbers, fish tallies) is a [Z], and the bit
    operators [&], [|], [^], [<<], [>>] are [Z.land], [Z.lor], [Z.lxor],
    [Z.shiftl], [Z.shiftr].  The two places where the source goes through
    floating point ([x / 2 ... + 0.5] in [HexCoordinate.to_cartesian] and
    [int(index / 8)] in [CartesianCoordinate.from_index]) are computed over
    the rationals; the two agree as long as the integers involved are below
    2^52, which covers every coordinate of the 8x8 board by a wide margin.

    Python exceptions are values of [exn].  Code that only reads a board is
    embedded in the error monad [E]; code that creates or mutates objects
    ([Board], [Fishes], [Move], [GameState]) runs in the monad [M] over an
    explicit object store, so that aliasing and object identity are visible. *)

From Stdlib Require Import ZArith QArith Qround List Lia Bool.
From stdpp Require Import base list.
Import ListNotations.

#[local] Open Scope Z_scope.

(** ** Exceptions and the error monad *)

Inductive exn : Type :=
| IndexError        (* raise IndexError("Index out of range.") *)
| TypeError         (* wrong number of arguments, arithmetic on None *)
| ValueError        (* negative shift count, Fishes.add_fish on a bad team *)
| AttributeError    (* attribute access on None *)
| FishValueError    (* raise Exception("Fish value not allowed. ...") *)
| InvalidMoveError  (* raise Exception("Invalid move: ...") *)
| OutOfFuel.        (* not a Python exception: the iteration bound that the
                       embedding puts on a [while] loop was reached *)

Definition E (A : Type) : Type := exn + A.

Definition ret {A} (a : A) : E A := inr a.
Definition raise {A} (e : exn) : E A := inl e.
Definition bind {A B} (m : E A) (f : A -> E B) : E B :=
  match m with
  | inl e => inl e
  | inr a => f a
  end.

Declare Scope err_scope.
Delimit Scope err_scope with err.
Notation "'let*' x ':=' m 'in' f" := (bind m (fun x => f))
  (at level 10, x name, m at level 100, f at level 200) : err_scope.

(** ** Vector *)

Record Vector : Type := mkVector { d_x : Z; d_y : Z }.

Definition addition (v w : Vector) : Vector :=
  mkVector (d_x v + d_x w) (d_y v + d_y w).

Definition scalar_product (v : Vector) (scalar : Z) : Vector :=
  mkVector (d_x v * scalar) (d_y v * scalar).

(** [Vector.directions] does not depend on the receiver. *)
Definition directions : list Vector :=
  [ mkVector 1 (-1)      (* UP RIGHT *)
  ; mkVector (-2) 0      (* LEFT *)
  ; mkVector 1 1         (* DOWN RIGHT *)
  ; mkVector (-1) 1      (* DOWN LEFT *)
  ; mkVector 2 0         (* Right *)
  ; mkVector (-1) (-1)   (* UP LEFT *) ].

Definition dot_product (v w : Vector) : Z := d_x v * d_x w + d_y v * d_y w.

Definition cross_product (v w : Vector) : Z := d_x v * d_y w - d_y v * d_x w.

Definition subtraction (v w : Vector) : Vector :=
  mkVector (d_x v - d_x w) (d_y v - d_y w).

Definition are_identically (v w : Vector) : bool :=
  (d_x v =? d_x w) && (d_y v =? d_y w).

(** [abs(d_x) == abs(d_y) or (d_x % 2 == 0 and d_y == 0)] *)
Definition is_one_hex_move (v : Vector) : bool :=
  (Z.abs (d_x v) =? Z.abs (d_y v)) || ((d_x v mod 2 =? 0) && (d_y v =? 0)).

(** ** CartesianCoordinate and HexCoordinate *)

Record CartesianCoordinate : Type := mkCartesian { cx : Z; cy : Z }.
Record HexCoordinate : Type := mkHex { hx : Z; hy : Z }.

(** [1 if y % 2 == 1 else 0] *)
Definition odd_row (y : Z) : Z := if y mod 2 =? 1 then 1 else 0.

Definition to_hex (c : CartesianCoordinate) : HexCoordinate :=
  mkHex (cx c * 2 + odd_row (cy c)) (cy c).

(** [to_index] returns [None] off the board. *)
Definition to_index (c : CartesianCoordinate) : option Z :=
  if (0 <=? cx c) && (cx c <=? 7) && (0 <=? cy c) && (cy c <=? 7)
  then Some (cy c * 8 + cx c)
  else None.

(** [int(q)] on a quotient: truncation towards zero. *)
Definition Qtrunc (q : Q) : Z := Z.quot (Qnum q) (Zpos (Qden q)).

(** [int(index / 8)]: true division, then truncation. *)
Definition int_div8 (index : Z) : Z := Qtrunc (inject_Z index / 8)%Q.

Definition from_index (index : Z) : E CartesianCoordinate :=
  if (0 <=? index) && (index <=? 63)
  then ret (mkCartesian (index mod 8) (int_div8 index))
  else raise IndexError.

(** [math.floor((x / 2 - (1 if y % 2 == 1 else 0)) + 0.5)], computed over
    the rationals.  The source computes it in doubles, which give the same
    value while [x / 2], the difference and the sum are exact: for
    [|x| <= 2^52] (see [within_double_precision]); a cell of the board has
    [0 <= x <= 15].  Beyond that range the source rounds, and from about
    [2^1024] on [x / 2] raises [OverflowError]; statements about coordinates
    that need not be on the board carry the bound as a hypothesis. *)
Definition to_cartesian (h : HexCoordinate) : CartesianCoordinate :=
  mkCartesian
    (Qfloor ((inject_Z (hx h) / 2 - inject_Z (odd_row (hy h))) + (1 # 2))%Q)
    (hy h).

Definition hex_to_vector (h : HexCoordinate) : Vector := mkVector (hx h) (hy h).

Definition add_vector (h : HexCoordinate) (v : Vector) : HexCoordinate :=
  let w := addition (hex_to_vector h) v in
  mkHex (d_x w) (d_y w).

Definition subtract_vector (h : HexCoordinate) (v : Vector) : HexCoordinate :=
  let w := subtraction (hex_to_vector h) v in
  mkHex (d_x w) (d_y w).

(** [[self.add_vector(vector) for vector in self.to_vector().directions]] *)
Definition get_neighbors (h : HexCoordinate) : list HexCoordinate :=
  map (add_vector h) directions.

(** [HexCoordinate.__eq__] *)
Definition HexCoordinate_eqb (a b : HexCoordinate) : bool :=
  (hx a =? hx b) && (hy a =? hy b).

(** ** Teams, moves, penguins, fields *)

Inductive TeamEnum : Type := ONE | TWO.

Definition TeamEnum_eqb (a b : TeamEnum) : bool :=
  match a, b with
  | ONE, ONE | TWO, TWO => true
  | _, _ => false
  end.

Record Penguin : Type := mkPenguin { position : HexCoordinate; penguin_team : TeamEnum }.

Record Team : Type := mkTeam { name : TeamEnum; penguins : list Penguin; team_fish : Z }.

Definition opponent (t : Team) : Team :=
  match name t with
  | ONE => mkTeam TWO [] 0
  | TWO => mkTeam ONE [] 0
  end.

Record Move : Type :=
  mkMove { from_value : option HexCoordinate; to_value : HexCoordinate; team : TeamEnum }.

Record Field : Type :=
  mkField { coordinate : HexCoordinate; penguin : option Penguin; fish : Z }.

(** [Move.reverse]: a placement is reversed towards [HexCoordinate(0, 0)]. *)
Definition reverse (m : Move) : Move :=
  mkMove (Some (to_value m))
         (match from_value m with Some origin => origin | None => mkHex 0 0 end)
         (team m).

(** [Field.has_penguin] and [Field.get_team] *)
Definition has_penguin (f : Field) : bool :=
  match penguin f with Some _ => true | None => false end.

Definition get_team (f : Field) : option TeamEnum :=
  match penguin f with Some p => Some (penguin_team p) | None => None end.

(** ** Board: seven bit masks *)

Record Board : Type :=
  mkBoard { one : Z; two : Z; fish_0 : Z; fish_1 : Z; fish_2 : Z; fish_3 : Z; fish_4 : Z }.

(** [1 << index]; Python raises [ValueError] on a negative shift count. *)
Definition shl1 (index : Z) : E Z :=
  if index <? 0 then raise ValueError else ret (Z.shiftl 1 index).

(** [mask & (1 << index) != 0] *)
Definition bit_set (mask index : Z) : E bool :=
  (let* b := shl1 index in ret (negb (Z.land mask b =? 0)))%err.

(** [mask >> index & 1 != 0], for [index] taken from [range(n)]. *)
Definition bit_at (mask index : Z) : bool :=
  negb (Z.land (Z.shiftr mask index) 1 =? 0).

(** An index that is [None] where an integer is needed.  Every such value
    is used first as a shift count or as an operand of [<=]; both raise
    [TypeError] on [None]. *)
Definition with_index {A} (index : option Z) (f : Z -> E A) : E A :=
  match index with
  | None => raise TypeError
  | Some i => f i
  end.

Definition range (n : nat) : list Z := map Z.of_nat (seq 0 n).

(** A [for] loop (or comprehension) that extends a list: the bodies run in
    order and the first exception ends the loop. *)
Fixpoint flat_mapE {A B} (f : A -> E (list B)) (l : list A) : E (list B) :=
  match l with
  | [] => ret []
  | a :: l' => (let* x := f a in let* r := flat_mapE f l' in ret (x ++ r))%err
  end.

Section BoardQueries.
Variable self : Board.

Definition get_penguin (coordinate : HexCoordinate) : E (option Penguin) :=
  with_index (to_index (to_cartesian coordinate)) (fun index =>
    let* in_one := bit_set (one self) index in
    if in_one then ret (Some (mkPenguin coordinate ONE))
    else let* in_two := bit_set (two self) index in
         if in_two then ret (Some (mkPenguin coordinate TWO))
         else ret None)%err.

Definition get_fish (index : Z) : E Z :=
  (let* b0 := bit_set (fish_0 self) index in
   if b0 then ret 0 else
   let* b1 := bit_set (fish_1 self) index in
   if b1 then ret 1 else
   let* b2 := bit_set (fish_2 self) index in
   if b2 then ret 2 else
   let* b3 := bit_set (fish_3 self) index in
   if b3 then ret 3 else
   let* b4 := bit_set (fish_4 self) index in
   if b4 then ret 4 else ret 0)%err.

Definition get_field (index : Z) : E Field :=
  (let* c := from_index index in
   let coordinate := to_hex c in
   let* penguin := get_penguin coordinate in
   let* fish := with_index (to_index (to_cartesian coordinate)) get_fish in
   ret (mkField coordinate penguin fish))%err.

Definition is_occupied (index : Z) : E bool :=
  (let* in_one := bit_set (one self) index in
   if in_one then ret true else bit_set (two self) index)%err.

Definition is_valid (index : Z) : bool := index <? 64.

Definition is_team (team : TeamEnum) (index : Z) : E bool :=
  match team with
  | ONE => bit_set (one self) index
  | TWO => bit_set (two self) index
  end.

Definition get_teams_penguins (team : TeamEnum) : E (list Penguin) :=
  flat_mapE (fun index =>
    let* first :=
      (if TeamEnum_eqb team ONE && bit_at (one self) index
       then let* c := from_index index in ret [mkPenguin (to_hex c) ONE]
       else ret []) in
    let* second :=
      (if TeamEnum_eqb team TWO && bit_at (two self) index
       then let* c := from_index index in ret [mkPenguin (to_hex c) TWO]
       else ret []) in
    ret (first ++ second))%err (range 64).

(** The guard of the [while] loop of [get_directive_moves]:
    [new_index is not None and self.is_valid(new_index)
     and not self.is_occupied(new_index) and self.get_fish(new_index) > 0] *)
Definition ray_continues (new_index : option Z) : E bool :=
  match new_index with
  | None => ret false
  | Some i =>
      if is_valid i then
        (let* occupied := is_occupied i in
         if negb occupied then (let* f := get_fish i in ret (0 <? f))
         else ret false)%err
      else ret false
  end.

(** [CartesianCoordinate.from_index(i).to_hex().add_vector(direction)
     .to_cartesian().to_index()] *)
Definition step_index (i : Z) (direction : Vector) : E (option Z) :=
  (let* c := from_index i in
   ret (to_index (to_cartesian (add_vector (to_hex c) direction))))%err.

(** The [while] loop, with the number of evaluations of its guard bounded
    by [fuel]. *)
Fixpoint directive_loop (fuel : nat) (origin : HexCoordinate) (direction : Vector)
    (team : TeamEnum) (new_index : option Z) (moves : list Move) : E (list Move) :=
  match fuel with
  | O => raise OutOfFuel
  | S fuel' =>
      (let* continue := ray_continues new_index in
       match continue, new_index with
       | true, Some i =>
           let* c := from_index i in
           let* next := step_index i direction in
           directive_loop fuel' origin direction team next
             (moves ++ [mkMove (Some origin) (to_hex c) team])
       | _, _ => ret moves
       end)%err
  end.

Definition get_directive_moves_fuel (fuel : nat) (index : Z) (direction : Vector)
    (team : TeamEnum) : E (list Move) :=
  (let* c := from_index index in
   let origin := to_hex c in
   let* mine := is_team team index in
   if mine then
     let* new_index := step_index index direction in
     directive_loop fuel origin direction team new_index []
   else ret [])%err.

(** A ray leaves the 8x8 board after at most seven cells, so the guard is
    evaluated at most eight times. *)
Definition ray_fuel : nat := 8.

Definition get_directive_moves : Z -> Vector -> TeamEnum -> E (list Move) :=
  get_directive_moves_fuel ray_fuel.

Definition possible_moves_from (index : Z) (team : TeamEnum) : E (list Move) :=
  flat_mapE (fun direction => get_directive_moves index direction team) directions.

(** The truth value of an integer. *)
Definition truthy (z : Z) : bool := negb (z =? 0).

(** [get_most_fish]: [max_fish] is [max] applied to the five masks. *)
Definition get_most_fish : E (list Field) :=
  let max_fish :=
    Z.max (fish_0 self) (Z.max (fish_1 self) (Z.max (fish_2 self)
      (Z.max (fish_3 self) (fish_4 self)))) in
  flat_mapE (fun i =>
    let* c := from_index i in
    let coordinate := to_hex c in
    let* fish := with_index (to_index (to_cartesian coordinate)) get_fish in
    let field := mkField coordinate None fish in
    let* bit := shl1 i in
    if truthy (Z.land (fish_0 self) bit) && (fish_0 self =? max_fish) then ret [field]
    else if truthy (Z.land (fish_1 self) bit) && (fish_1 self =? max_fish) then ret [field]
    else if truthy (Z.land (fish_2 self) bit) && (fish_2 self =? max_fish) then ret [field]
    else if truthy (Z.land (fish_3 self) bit) && (fish_3 self =? max_fish) then ret [field]
    else if truthy (Z.land (fish_4 self) bit) && (fish_4 self =? max_fish) then ret [field]
    else ret [])%err (range 64).

End BoardQueries.

(** ** Board: set algebra, mask by mask *)

Definition board_equivalence (a b : Board) : bool :=
  (one a =? one b) && (two a =? two b) &&
  (fish_0 a =? fish_0 b) && (fish_1 a =? fish_1 b) &&
  (fish_2 a =? fish_2 b) && (fish_3 a =? fish_3 b) &&
  (fish_4 a =? fish_4 b).

Definition board_is_empty (a : Board) : bool :=
  (one a =? 0) && (two a =? 0) &&
  (fish_0 a =? 0) && (fish_1 a =? 0) &&
  (fish_2 a =? 0) && (fish_3 a =? 0) &&
  (fish_4 a =? 0).

(** The same binary operator on each of the seven masks. *)
Definition maskwise (op : Z -> Z -> Z) (a b : Board) : Board :=
  mkBoard (op (one a) (one b)) (op (two a) (two b))
          (op (fish_0 a) (fish_0 b)) (op (fish_1 a) (fish_1 b))
          (op (fish_2 a) (fish_2 b)) (op (fish_3 a) (fish_3 b))
          (op (fish_4 a) (fish_4 b)).

Definition board_intersection : Board -> Board -> Board := maskwise Z.land.

Definition board_union : Board -> Board -> Board := maskwise Z.lor.

(** [self.one & ~other.one], ... *)
Definition board_difference : Board -> Board -> Board :=
  maskwise (fun x y => Z.land x (Z.lnot y)).

Definition board_disjoint (a b : Board) : bool :=
  board_is_empty (board_intersection a b).

Definition board_complement (a : Board) : Board :=
  mkBoard (Z.lnot (one a)) (Z.lnot (two a)) (Z.lnot (fish_0 a)) (Z.lnot (fish_1 a))
          (Z.lnot (fish_2 a)) (Z.lnot (fish_3 a)) (Z.lnot (fish_4 a)).

(** [(~self.one) | other.one], ... *)
Definition board_implication : Board -> Board -> Board :=
  maskwise (fun x y => Z.lor (Z.lnot x) y).

Definition board_exclusive_or : Board -> Board -> Board := maskwise Z.lxor.

(** [~(one | two | fish_0 | fish_1 | fish_2 | fish_3 | fish_4)] *)
Definition empty_bitmask (a : Board) : Z :=
  Z.lnot (Z.lor (Z.lor (Z.lor (Z.lor (Z.lor (Z.lor (one a) (two a)) (fish_0 a))
                                     (fish_1 a)) (fish_2 a)) (fish_3 a)) (fish_4 a)).

(** ** Board: further scans *)

(** [contains_field]: a chain of [or] over the seven masks. *)
Definition contains_field (self : Board) (index : Z) : E bool :=
  (let* in_one := bit_set (one self) index in
   if in_one then ret true else
   let* in_two := bit_set (two self) index in
   if in_two then ret true else
   let* in_0 := bit_set (fish_0 self) index in
   if in_0 then ret true else
   let* in_1 := bit_set (fish_1 self) index in
   if in_1 then ret true else
   let* in_2 := bit_set (fish_2 self) index in
   if in_2 then ret true else
   let* in_3 := bit_set (fish_3 self) index in
   if in_3 then ret true else
   bit_set (fish_4 self) index)%err.


(** [Board.get_coordinates], a static method on one mask. *)
Definition get_coordinates (bitboard : Z) : E (list HexCoordinate) :=
  flat_mapE (fun index =>
    let* here := bit_set bitboard index in
    if here then (let* c := from_index index in ret [to_hex c]) else ret [])%err
    (range 64).

(** The seven masks in the order of [get_bit_coordinate]. *)
Definition masks (field : Board) : list Z :=
  [one field; two field; fish_0 field; fish_1 field; fish_2 field; fish_3 field;
   fish_4 field].

(** The inner loop of [get_bit_coordinate]:
    [for f in fields: if f & (1 << index) != 0: count += 1] *)
Fixpoint count_bits (fields : list Z) (index count : Z) : E Z :=
  match fields with
  | [] => ret count
  | f :: rest =>
      (let* here := bit_set f index in
       count_bits rest index (if here then count + 1 else count))%err
  end.

(** The outer loop: the masks are tested at [index], and only then is
    [index] given the value of the loop variable. *)
Fixpoint bit_coordinate_loop (fields : list Z) (indices : list Z) (count index : Z)
    : E (Z * Z) :=
  match indices with
  | [] => ret (count, index)
  | i :: rest =>
      (let* count' := count_bits fields index count in
       bit_coordinate_loop fields rest count' i)%err
  end.

Definition get_bit_coordinate (field : Board) : E HexCoordinate :=
  (let* final := bit_coordinate_loop (masks field) (range 64) 0 0 in
   if fst final =? 1 then
     let* c := from_index (snd final) in ret (to_hex c)
   else raise ValueError)%err.

(** [get_empty_fields]: the scan is over [range(63)]. *)
Definition get_empty_fields (self : Board) : E (list Field) :=
  let empty_bits := empty_bitmask self in
  flat_mapE (fun index =>
    if bit_at empty_bits index then
      let* c := from_index index in
      let coordinate := to_hex c in
      let* fish := with_index (to_index (to_cartesian coordinate)) (get_fish self) in
      ret [mkField coordinate None fish]
    else ret [])%err (range 63).

Definition get_penguins (self : Board) : E (list Penguin) :=
  flat_mapE (fun index =>
    let* first :=
      (if bit_at (one self) index
       then let* c := from_index index in ret [mkPenguin (to_hex c) ONE]
       else ret []) in
    let* second :=
      (if bit_at (two self) index
       then let* c := from_index index in ret [mkPenguin (to_hex c) TWO]
       else ret []) in
    ret (first ++ second))%err (range 64).

(** ** The object store

    [Board], [Fishes], [Move] and [GameState] instances are objects: they are
    reached through references, a [Board] or a [Fishes] can be updated in
    place, and a [Move] is compared by identity ([Move] defines no
    [__eq__]).  The store is the list of all objects created so far and a
    reference is a position in it. *)

Record Fishes : Type := mkFishes { fishes_one : Z; fishes_two : Z }.

Abbreviation ref := nat.

Record GameState : Type := mkGameState
  { start_team : Team;
    board : ref;
    turn : Z;
    round : Z;
    current_team : Team;
    other_team : Team;
    last_move : option ref;
    fishes : ref;
    current_pieces : list Penguin;
    possible_moves : list ref }.

Inductive object : Type :=
| OBoard (b : Board)
| OFishes (f : Fishes)
| OMove (m : Move)
| OGameState (s : GameState).

Abbreviation store := (list object).

(** A computation may change the store and ends in a value or an exception;
    what it wrote before an exception stays written. *)
Definition M (A : Type) : Type := store -> store * E A.

Definition mret {A} (a : A) : M A := fun st => (st, inr a).
Definition mraise {A} (e : exn) : M A := fun st => (st, inl e).
Definition mbind {A B} (m : M A) (f : A -> M B) : M B :=
  fun st =>
    match m st with
    | (st', inl e) => (st', inl e)
    | (st', inr a) => f a st'
    end.
Definition lift {A} (e : E A) : M A := fun st => (st, e).

Declare Scope store_scope.
Delimit Scope store_scope with store.
Notation "'let!' x ':=' m 'in' f" := (mbind m (fun x => f))
  (at level 10, x name, m at level 100, f at level 200) : store_scope.

Definition alloc (o : object) : M ref := fun st => (st ++ [o], inr (length st)).

(** Creating one [Move] object per element, in order. *)
Definition alloc_moves (ms : list Move) : M (list ref) :=
  fun st => (st ++ map OMove ms, inr (seq (length st) (length ms))).

Definition read_board (l : ref) : M Board :=
  fun st => match st !! l with
            | Some (OBoard b) => (st, inr b)
            | _ => (st, inl AttributeError)
            end.

Definition read_fishes (l : ref) : M Fishes :=
  fun st => match st !! l with
            | Some (OFishes f) => (st, inr f)
            | _ => (st, inl AttributeError)
            end.

Definition read_move (l : ref) : M Move :=
  fun st => match st !! l with
            | Some (OMove m) => (st, inr m)
            | _ => (st, inl AttributeError)
            end.

Definition read_state (l : ref) : M GameState :=
  fun st => match st !! l with
            | Some (OGameState s) => (st, inr s)
            | _ => (st, inl AttributeError)
            end.

Definition write (l : ref) (o : object) : M unit :=
  fun st => (<[l := o]> st, inr tt).

(** ** Board: operations that write *)

Definition with_one (b : Board) (v : Z) : Board :=
  mkBoard v (two b) (fish_0 b) (fish_1 b) (fish_2 b) (fish_3 b) (fish_4 b).
Definition with_two (b : Board) (v : Z) : Board :=
  mkBoard (one b) v (fish_0 b) (fish_1 b) (fish_2 b) (fish_3 b) (fish_4 b).
Definition with_fish_0 (b : Board) (v : Z) : Board :=
  mkBoard (one b) (two b) v (fish_1 b) (fish_2 b) (fish_3 b) (fish_4 b).
Definition with_fish_1 (b : Board) (v : Z) : Board :=
  mkBoard (one b) (two b) (fish_0 b) v (fish_2 b) (fish_3 b) (fish_4 b).
Definition with_fish_2 (b : Board) (v : Z) : Board :=
  mkBoard (one b) (two b) (fish_0 b) (fish_1 b) v (fish_3 b) (fish_4 b).
Definition with_fish_3 (b : Board) (v : Z) : Board :=
  mkBoard (one b) (two b) (fish_0 b) (fish_1 b) (fish_2 b) v (fish_4 b).
Definition with_fish_4 (b : Board) (v : Z) : Board :=
  mkBoard (one b) (two b) (fish_0 b) (fish_1 b) (fish_2 b) (fish_3 b) v.

(** [self.one ^= 1 << index], and likewise for the other masks and for
    [|=]: read the attribute, compute, store. *)
Definition update_mask (self : ref) (get : Board -> Z) (set : Board -> Z -> Board)
    (op : Z -> Z -> Z) (index : option Z) : M unit :=
  (let! b := read_board self in
   let! bit := lift (with_index index shl1) in
   write self (OBoard (set b (op (get b) bit))))%store.

(** [Board.update]: in place. *)
Definition update (self : ref) (move : ref) : M unit :=
  (let! m := read_move move in
   match from_value m with
   | Some origin =>
       let from_coord := to_index (to_cartesian origin) in
       let to_coord := to_index (to_cartesian (to_value m)) in
       match team m with
       | ONE =>
           let! _ := update_mask self one with_one Z.lxor from_coord in
           update_mask self one with_one Z.lor to_coord
       | TWO =>
           let! _ := update_mask self two with_two Z.lxor from_coord in
           update_mask self two with_two Z.lor to_coord
       end
   | None =>
       let to_coord := to_index (to_cartesian (to_value m)) in
       match team m with
       | ONE => update_mask self one with_one Z.lor to_coord
       | TWO => update_mask self two with_two Z.lor to_coord
       end
   end)%store.

(** [Board.set_field]: in place. *)
Definition set_field (self : ref) (field : Field) : M unit :=
  match penguin field with
  | Some p =>
      let index := to_index (to_cartesian (position p)) in
      match penguin_team p with
      | ONE => update_mask self one with_one Z.lor index
      | TWO => update_mask self two with_two Z.lor index
      end
  | None =>
      let fish := fish field in
      let index := to_index (to_cartesian (coordinate field)) in
      if fish =? 0 then update_mask self fish_0 with_fish_0 Z.lor index
      else if fish =? 1 then update_mask self fish_1 with_fish_1 Z.lor index
      else if fish =? 2 then update_mask self fish_2 with_fish_2 Z.lor index
      else if fish =? 3 then update_mask self fish_3 with_fish_3 Z.lor index
      else if fish =? 4 then update_mask self fish_4 with_fish_4 Z.lor index
      else mraise FishValueError
  end.

(** [Board.move]: [new_board = self] binds a second name to the receiver;
    no [Board] is created.  [origin.to_cartesian()] is an attribute access
    on [None] when the move is a placement. *)
Definition move (self : ref) (move : ref) : M ref :=
  (let new_board := self in
   let! m := read_move move in
   let origin := from_value m in
   let destination := to_value m in
   match origin with
   | None => mraise AttributeError
   | Some origin =>
       let origin_index := to_index (to_cartesian origin) in
       let destination_index := to_index (to_cartesian destination) in
       let! b := read_board self in
       let! origin_field := lift (with_index origin_index (get_field b)) in
       let! b := read_board self in
       let! destination_field := lift (with_index destination_index (get_field b)) in
       let! _ := set_field new_board origin_field in
       let! _ := set_field new_board destination_field in
       mret new_board
   end)%store.

(** ** Fishes *)

(** [Fishes.add_fish]: in place, and the receiver is returned.  The
    [else: raise ValueError] arm needs a team name that is neither [ONE] nor
    [TWO]; [TeamEnum] has none. *)
Definition add_fish (self : ref) (team : Team) (fish : Z) : M ref :=
  (let! f := read_fishes self in
   let! _ := match name team with
             | ONE => write self (OFishes (mkFishes (fishes_one f + fish) (fishes_two f)))
             | TWO => write self (OFishes (mkFishes (fishes_one f) (fishes_two f + fish)))
             end in
   mret self)%store.

(** [Fishes.get_fish_by_team] *)
Definition get_fish_by_team (self : ref) (team : Team) : M Z :=
  (let! f := read_fishes self in
   mret (match name team with
         | ONE => fishes_one f
         | TWO => fishes_two f
         end))%store.

(** ** GameState *)

(** A positional argument of a call. *)
Inductive argument : Type :=
| ArgIndex (index : Z)
| ArgTeam (team : TeamEnum)
| ArgPenguin (penguin : Penguin).

(** A call [board.possible_moves_from(...)] from its positional arguments.
    The method takes [index] and [team]; Python checks the number of
    arguments before the body runs and raises [TypeError] when one is
    missing. *)
Definition possible_moves_from_call (self : Board) (args : list argument) : E (list Move) :=
  match args with
  | [ArgIndex index; ArgTeam team] => possible_moves_from self index team
  | _ => raise TypeError
  end.

(** [[... for x in range(width) for y in range(height)]]: [x] is the outer
    loop. *)
Definition scan_order : list (Z * Z) :=
  flat_map (fun x => map (fun y => (x, y)) (range 8)) (range 8).

Definition scan_fields (b : Board) : E (list Field) :=
  flat_mapE (fun xy =>
    let* field := with_index (to_index (mkCartesian (fst xy) (snd xy))) (get_field b) in
    ret [field])%err scan_order.

(** [not field.penguin and field.fish == 1] *)
Definition placeable (field : Field) : bool :=
  match penguin field with
  | None => fish field =? 1
  | Some _ => false
  end.

(** [GameState._get_possible_moves].  The constructor calls it before the
    instance is complete; of [self] it reads [self.board] only
    ([current_team.name] is an enum member, hence true, and the right operand
    of [or] is not evaluated), so the method is given that attribute. *)
Definition _get_possible_moves (board : ref) (current_team : Team) : M (list ref) :=
  (let current_team := name current_team in
   let! b := read_board board in
   let! fields := lift (scan_fields b) in
   let! mine := lift (get_teams_penguins b current_team) in
   if (length mine <? 4)%nat then
     alloc_moves
       (map (fun field => mkMove None (coordinate field) current_team)
            (List.filter placeable fields))
   else
     let! b := read_board board in
     let! mine := lift (get_teams_penguins b current_team) in
     let! moves := lift (flat_mapE (fun penguin =>
                     possible_moves_from_call b [ArgPenguin penguin]) mine) in
     alloc_moves moves)%store.

(** [GameState.current_team_from_turn], reading [self.start_team],
    [self.turn] and [self.board]. *)
Definition nominal_team (start_team : Team) (turn : Z) : Team :=
  if turn mod 2 =? 0 then start_team else opponent start_team.

Definition current_team_from_turn (board : ref) (turn : Z) (start_team : Team) : M Team :=
  (let current_team_by_turn := nominal_team start_team turn in
   let! moves := _get_possible_moves board current_team_by_turn in
   match moves with
   | [] => mret (opponent current_team_by_turn)
   | _ :: _ => mret current_team_by_turn
   end)%store.

(** [GameState.__init__]; the new instance enters the store when all its
    attributes are set.  [round] is [int((turn + 1) / 2)], computed over the
    rationals: the double of the source is exact for [|turn| < 2^53]; no
    statement below reads [round]. *)
Definition GameState_init (board : ref) (turn : Z) (start_team : Team) (fishes : ref)
    (last_move : option ref) : M ref :=
  (let round := Qtrunc (inject_Z (turn + 1) / 2)%Q in
   let! current_team := current_team_from_turn board turn start_team in
   let! again := current_team_from_turn board turn start_team in
   let other_team := opponent again in
   let! b := read_board board in
   let! current_pieces := lift (get_teams_penguins b (name current_team)) in
   let! possible_moves := _get_possible_moves board current_team in
   alloc (OGameState
            (mkGameState start_team board turn round current_team other_team
                         last_move fishes current_pieces possible_moves)))%store.

(** [move in self.possible_moves]: [Move] has no [__eq__], so list
    membership compares object identities. *)
Definition is_valid_move (s : GameState) (move : ref) : bool :=
  existsb (Nat.eqb move) (possible_moves s).

(** [GameState.perform_move] *)
Definition perform_move (self : ref) (move_ref : ref) : M ref :=
  (let! s := read_state self in
   if negb (is_valid_move s move_ref) then mraise InvalidMoveError
   else
     let! new_board := move (board s) move_ref in
     let! m := read_move move_ref in
     let! nb := read_board new_board in
     let! field := lift (with_index (to_index (to_cartesian (to_value m))) (get_field nb)) in
     let! new_fishes := add_fish (fishes s) (current_team s) (fish field) in
     GameState_init new_board (turn s + 1) (start_team s) new_fishes (Some move_ref))%store.

(** ** Notions used in the statements *)

(** A hex coordinate is [aligned] when it names a cell of the doubled
    grid: its column has the parity of its row. *)
Definition aligned (h : HexCoordinate) : Prop := (hx h - hy h) mod 2 = 0.

(** The Cartesian coordinate of a linear index. *)
Definition cell (i : Z) : CartesianCoordinate := mkCartesian (i mod 8) (i / 8).

(** What [bit_set], [get_fish], [get_penguin], [get_field],
    [get_teams_penguins] and the scan of all fields return on indices of the
    board, where they raise nothing. *)
Definition has_bit (mask i : Z) : bool := negb (Z.land mask (Z.shiftl 1 i) =? 0).

Definition fish_at (b : Board) (i : Z) : Z :=
  if has_bit (fish_0 b) i then 0
  else if has_bit (fish_1 b) i then 1
  else if has_bit (fish_2 b) i then 2
  else if has_bit (fish_3 b) i then 3
  else if has_bit (fish_4 b) i then 4
  else 0.

Definition penguin_at (b : Board) (i : Z) : option Penguin :=
  if has_bit (one b) i then Some (mkPenguin (to_hex (cell i)) ONE)
  else if has_bit (two b) i then Some (mkPenguin (to_hex (cell i)) TWO)
  else None.

Definition field_at (b : Board) (i : Z) : Field :=
  mkField (to_hex (cell i)) (penguin_at b i) (fish_at b i).

Definition penguins_at (b : Board) (team : TeamEnum) (index : Z) : list Penguin :=
  (if TeamEnum_eqb team ONE && bit_at (one b) index
   then [mkPenguin (to_hex (cell index)) ONE] else []) ++
  (if TeamEnum_eqb team TWO && bit_at (two b) index
   then [mkPenguin (to_hex (cell index)) TWO] else []).

Definition teams_penguins (b : Board) (team : TeamEnum) : list Penguin :=
  flat_map (penguins_at b team) (range 64).

Definition fields (b : Board) : list Field :=
  map (fun xy => field_at b (snd xy * 8 + fst xy)) scan_order.

(** The linear index of a hex coordinate, [None] off the board. *)
Definition hex_index (h : HexCoordinate) : option Z := to_index (to_cartesian h).

(** The cell [k] steps from [origin] along [direction]. *)
Definition ray_cell (origin : HexCoordinate) (direction : Vector) (k : nat) : HexCoordinate :=
  add_vector origin (scalar_product direction (Z.of_nat k)).

(** A cell a penguin can slide onto: on the board, unoccupied, with fish. *)
Definition landing_cell (b : Board) (h : HexCoordinate) : bool :=
  match hex_index h with
  | Some i =>
      match is_occupied b i, get_fish b i with
      | inr false, inr f => 0 <? f
      | _, _ => false
      end
  | None => false
  end.

(** The move of [team] from [origin] to the [k]-th cell of the ray. *)
Definition slide (origin : HexCoordinate) (direction : Vector) (team : TeamEnum)
    (k : nat) : Move :=
  mkMove (Some origin) (ray_cell origin direction k) team.

(** A penguin of team ONE at index 0, one fish at indices 1 and 2. *)
Definition scenarioA : Board := mkBoard 1 0 0 6 0 0 0.

Definition team_mask (t : TeamEnum) (b : Board) : Z :=
  match t with ONE => one b | TWO => two b end.

Definition other_team_mask (t : TeamEnum) (b : Board) : Z :=
  match t with ONE => two b | TWO => one b end.

(** The acting team's mask after a move: the origin bit (when there is an
    origin) is XORed in, then the destination bit is ORed in. *)
Definition moved_mask (mask : Z) (from_coord : option Z) (to_coord : Z) : Z :=
  match from_coord with
  | Some i => Z.lor (Z.lxor mask (Z.shiftl 1 i)) (Z.shiftl 1 to_coord)
  | None => Z.lor mask (Z.shiftl 1 to_coord)
  end.

(** The placement moves of a team, in scan order. *)
Definition placements (b : Board) (t : TeamEnum) : list Move :=
  map (fun field => mkMove None (coordinate field) t) (List.filter placeable (fields b)).

(** Running a computation on a store. *)
Definition run {A} (m : M A) (st : store) : store * E A := m st.

(** The team whose turn it is, given the nominal team: the turn passes to
    the opponent when the nominal team has no placement. *)
Definition team_after_skip (b : Board) (nominal : Team) : Team :=
  match placements b (name nominal) with
  | [] => opponent nominal
  | _ :: _ => nominal
  end.

(** [st2] holds every object of [st1], as it is in [st1], and possibly
    objects created since. *)
Definition extends (st1 st2 : store) : Prop :=
  forall l o, st1 !! l = Some o -> st2 !! l = Some o.

(** What a successful construction has established. *)
Record constructed (st st1 : store) (bref : ref) (n : Z) (start : Team)
    (fref : ref) (last : option ref) (self : ref) (b : Board) (s : GameState) : Prop :=
  { c_board : st !! bref = Some (OBoard b);
    c_board_kept : st1 !! bref = Some (OBoard b);
    c_self : st1 !! self = Some (OGameState s);
    c_prefix : forall l o, st !! l = Some o -> st1 !! l = Some o;
    c_attributes :
      start_team s = start /\ board s = bref /\ turn s = n /\
      last_move s = last /\ fishes s = fref;
    c_nominal_placing :
      (length (teams_penguins b (name (nominal_team start n))) < 4)%nat;
    c_current : current_team s = team_after_skip b (nominal_team start n);
    c_current_placing : (length (teams_penguins b (name (current_team s))) < 4)%nat;
    c_moves :
      Forall2 (fun r mv => st1 !! r = Some (OMove mv))
              (possible_moves s) (placements b (name (current_team s))) }.

(** A computation is [quiet] when it cannot end in the invalid-move error. *)
Definition quietE {A} (e : E A) : Prop := e <> inl InvalidMoveError.
Definition quiet {A} (m : M A) : Prop := forall st, snd (m st) <> inl InvalidMoveError.

(** Following the spec: two moves are equal when they agree on the presence
    and the value of the origin, on the destination and on the team. *)
Definition structurally_equal (a b : Move) : bool :=
  match from_value a, from_value b with
  | Some x, Some y => HexCoordinate_eqb x y
  | None, None => true
  | _, _ => false
  end
  && HexCoordinate_eqb (to_value a) (to_value b)
  && TeamEnum_eqb (team a) (team b).

(** Validation by structural equality, as the spec words it: the
    invalid-move error is raised exactly when no legal move is structurally
    equal to the given one. *)
Definition validates_structurally : Prop :=
  forall (st : store) (self m : ref) (s : GameState) (mv : Move),
    st !! self = Some (OGameState s) ->
    st !! m = Some (OMove mv) ->
    (snd (run (perform_move self m) st) = inl InvalidMoveError <->
     ~ exists m' mv', In m' (possible_moves s) /\ st !! m' = Some (OMove mv') /\
                      structurally_equal mv mv' = true).

(** Some mask has bit [i]: what [contains_field] returns on a non-negative
    index. *)
Definition in_some_mask (b : Board) (i : Z) : bool :=
  has_bit (one b) i || has_bit (two b) i || has_bit (fish_0 b) i ||
  has_bit (fish_1 b) i || has_bit (fish_2 b) i || has_bit (fish_3 b) i ||
  has_bit (fish_4 b) i.

(** The penguins [get_penguins] reports at one index. *)
Definition both_penguins_at (b : Board) (index : Z) : list Penguin :=
  (if bit_at (one b) index then [mkPenguin (to_hex (cell index)) ONE] else []) ++
  (if bit_at (two b) index then [mkPenguin (to_hex (cell index)) TWO] else []).

(** The number of masks that have bit [index]. *)
Definition masks_with_bit (fields : list Z) (index : Z) : Z :=
  Z.of_nat (length (List.filter (fun f => has_bit f index) fields)).

(** The index [set_field] writes at: the penguin's position when the field
    has a penguin, the field's coordinate otherwise. *)
Definition field_index (field : Field) : option Z :=
  match penguin field with
  | Some p => hex_index (position p)
  | None => hex_index (coordinate field)
  end.

(** The board [set_field] leaves when it writes [field] at index [i]. *)
Definition put_field (b : Board) (field : Field) (i : Z) : Board :=
  let bit := Z.shiftl 1 i in
  match penguin field with
  | Some p =>
      match penguin_team p with
      | ONE => with_one b (Z.lor (one b) bit)
      | TWO => with_two b (Z.lor (two b) bit)
      end
  | None =>
      if fish field =? 0 then with_fish_0 b (Z.lor (fish_0 b) bit)
      else if fish field =? 1 then with_fish_1 b (Z.lor (fish_1 b) bit)
      else if fish field =? 2 then with_fish_2 b (Z.lor (fish_2 b) bit)
      else if fish field =? 3 then with_fish_3 b (Z.lor (fish_3 b) bit)
      else if fish field =? 4 then with_fish_4 b (Z.lor (fish_4 b) bit)
      else b
  end.

(** Every bit of [a] is a bit of [b], said with the board's own operations. *)
Definition included (a b : Board) : Prop :=
  board_is_empty (board_difference a b) = true.

(** The board with the mask of team [t] replaced. *)
Definition with_team_mask (t : TeamEnum) (b : Board) (v : Z) : Board :=
  match t with ONE => with_one b v | TWO => with_two b v end.

(** The range of columns on which the doubles of [to_cartesian] are exact:
    [x / 2] is a multiple of 0.5 of magnitude at most [2^51], and so are the
    difference and the sum, up to [2^51 + 1.5]; every such number is a
    double. *)
Definition within_double_precision (h : HexCoordinate) : Prop :=
  Z.abs (hx h) <= 2 ^ 52.


(** * Properties *)

(** ** Coordinate facts *)

Lemma int_div8_spec (i : Z) : 0 <= i -> int_div8 i = i / 8.
Proof.
  intros Hi. unfold int_div8, Qtrunc, Qdiv, Qmult, Qinv, inject_Z; simpl.
  rewrite Z.quot_div_nonneg by lia.
  rewrite Z.mul_1_r. reflexivity.
Qed.

Lemma to_cartesian_x (h : HexCoordinate) :
  cx (to_cartesian h) = (hx h + 1 - 2 * odd_row (hy h)) / 2.
Proof.
  unfold to_cartesian; cbn [cx].
  assert (Hq : ((inject_Z (hx h) / 2 - inject_Z (odd_row (hy h))) + (1 # 2)
                == (hx h + 1 - 2 * odd_row (hy h)) # 2)%Q).
  { unfold Qeq, Qdiv, Qmult, Qinv, Qminus, Qplus, Qopp, inject_Z; simpl. lia. }
  rewrite (Qfloor_comp _ _ Hq). reflexivity.
Qed.

Lemma to_cartesian_y (h : HexCoordinate) : cy (to_cartesian h) = hy h.
Proof. reflexivity. Qed.

Lemma odd_row_cases (y : Z) :
  (odd_row y = 0 /\ y mod 2 = 0) \/ (odd_row y = 1 /\ y mod 2 = 1).
Proof.
  unfold odd_row. destruct (Z.eqb_spec (y mod 2) 1) as [H | H].
  - right. split; [reflexivity | exact H].
  - left. split; [reflexivity |]. pose proof (Z.mod_pos_bound y 2). lia.
Qed.

Lemma from_index_valid (i : Z) :
  0 <= i <= 63 -> from_index i = inr (mkCartesian (i mod 8) (i / 8)).
Proof.
  intros Hi. unfold from_index.
  destruct (Z.leb_spec 0 i); [| lia]. destruct (Z.leb_spec i 63); [| lia].
  simpl. rewrite int_div8_spec by lia. reflexivity.
Qed.

Lemma to_index_Some (c : CartesianCoordinate) (i : Z) :
  to_index c = Some i <->
  0 <= cx c <= 7 /\ 0 <= cy c <= 7 /\ i = cy c * 8 + cx c.
Proof.
  unfold to_index.
  destruct ((0 <=? cx c) && (cx c <=? 7) && (0 <=? cy c) && (cy c <=? 7)) eqn:Hc.
  - rewrite !andb_true_iff, !Z.leb_le in Hc.
    split; [intros [= <-]; lia | intros (_ & _ & ->); reflexivity].
  - rewrite !andb_false_iff, !Z.leb_gt in Hc.
    split; [discriminate | lia].
Qed.

Lemma to_index_None (c : CartesianCoordinate) :
  to_index c = None <-> ~ (0 <= cx c <= 7 /\ 0 <= cy c <= 7).
Proof.
  unfold to_index.
  destruct ((0 <=? cx c) && (cx c <=? 7) && (0 <=? cy c) && (cy c <=? 7)) eqn:Hc.
  - rewrite !andb_true_iff, !Z.leb_le in Hc.
    split; [discriminate | lia].
  - rewrite !andb_false_iff, !Z.leb_gt in Hc.
    split; [lia | reflexivity].
Qed.

Lemma to_cartesian_to_hex (c : CartesianCoordinate) : to_cartesian (to_hex c) = c.
Proof.
  destruct c as [x y].
  assert (Hx : cx (to_cartesian (to_hex (mkCartesian x y))) = x).
  { rewrite to_cartesian_x. cbn [to_hex hx hy cx cy].
    destruct (odd_row_cases y) as [[-> _] | [-> _]];
      Z.div_mod_to_equations; lia. }
  pose proof (to_cartesian_y (to_hex (mkCartesian x y))) as Hy.
  destruct (to_cartesian (to_hex (mkCartesian x y))) as [x' y'].
  cbn in Hx, Hy. subst. reflexivity.
Qed.

Lemma to_hex_aligned (c : CartesianCoordinate) : aligned (to_hex c).
Proof.
  unfold aligned, to_hex; cbn [hx hy].
  destruct (odd_row_cases (cy c)) as [[-> H] | [-> H]];
    Z.div_mod_to_equations; lia.
Qed.

Lemma to_hex_to_cartesian (h : HexCoordinate) : aligned h -> to_hex (to_cartesian h) = h.
Proof.
  intros Ha. destruct h as [x y]. unfold aligned in Ha; cbn [hx hy] in Ha.
  unfold to_hex. rewrite to_cartesian_x, to_cartesian_y. cbn [hx hy].
  f_equal.
  destruct (odd_row_cases y) as [[-> Hm] | [-> Hm]];
    Z.div_mod_to_equations; lia.
Qed.

(** C8: a linear index 0..63 converted to a Cartesian coordinate and back
    is unchanged, and a Cartesian coordinate of the board converted to a
    hex coordinate and back is unchanged. *)
Theorem index_and_hex_round_trip (i x y : Z)
    (Hi : 0 <= i <= 63) (Hx : 0 <= x <= 7) (Hy : 0 <= y <= 7) :
  (exists c, from_index i = inr c /\ to_index c = Some i) /\
  to_cartesian (to_hex (mkCartesian x y)) = mkCartesian x y.
Proof.
  split.
  - exists (mkCartesian (i mod 8) (i / 8)). split.
    + apply from_index_valid, Hi.
    + apply to_index_Some; cbn [cx cy]. Z.div_mod_to_equations; lia.
  - apply to_cartesian_to_hex.
Qed.

Lemma index_and_hex_round_trip_witness :
  (0 <= 42 <= 63 /\ 0 <= 3 <= 7 /\ 0 <= 5 <= 7) /\
  (exists c, from_index 42 = inr c /\ to_index c = Some 42) /\
  to_cartesian (to_hex (mkCartesian 3 5)) = mkCartesian 3 5.
Proof.
  split; [lia |].
  apply (index_and_hex_round_trip 42 3 5); lia.
Defined.

(** ** Board queries on a valid index *)

Lemma shl1_valid (i : Z) : 0 <= i -> shl1 i = inr (Z.shiftl 1 i).
Proof. intros Hi. unfold shl1. destruct (Z.ltb_spec i 0); [lia | reflexivity]. Qed.

Lemma bit_set_valid (mask i : Z) : 0 <= i -> bit_set mask i = inr (has_bit mask i).
Proof. intros Hi. unfold bit_set. rewrite shl1_valid by exact Hi. reflexivity. Qed.

Lemma get_fish_valid (b : Board) (i : Z) : 0 <= i -> get_fish b i = inr (fish_at b i).
Proof.
  intros Hi. unfold get_fish, fish_at. rewrite !bit_set_valid by exact Hi. cbn [bind].
  repeat (match goal with |- context [if ?c then _ else _] => destruct c end;
          try reflexivity).
Qed.

Lemma is_occupied_valid (b : Board) (i : Z) :
  0 <= i -> is_occupied b i = inr (has_bit (one b) i || has_bit (two b) i).
Proof.
  intros Hi. unfold is_occupied. rewrite !bit_set_valid by exact Hi. cbn [bind].
  destruct (has_bit (one b) i); reflexivity.
Qed.

Lemma cell_index (i : Z) : 0 <= i <= 63 -> to_index (cell i) = Some i.
Proof.
  intros Hi. apply to_index_Some. unfold cell; cbn [cx cy].
  Z.div_mod_to_equations; lia.
Qed.

Lemma get_field_valid (b : Board) (i : Z) :
  0 <= i <= 63 -> get_field b i = inr (field_at b i).
Proof.
  intros Hi. unfold get_field, get_penguin.
  rewrite from_index_valid by exact Hi. cbn [bind]. fold (cell i).
  rewrite to_cartesian_to_hex, cell_index by exact Hi. cbn [with_index].
  rewrite !bit_set_valid, get_fish_valid by lia. cbn [bind].
  unfold field_at, penguin_at.
  destruct (has_bit (one b) i); [reflexivity |].
  destruct (has_bit (two b) i); reflexivity.
Qed.

Lemma flat_mapE_valid {A B} (f : A -> E (list B)) (g : A -> list B) (l : list A) :
  (forall a, In a l -> f a = inr (g a)) -> flat_mapE f l = inr (flat_map g l).
Proof.
  induction l as [| a l IH]; intros Hf; [reflexivity |].
  cbn [flat_mapE flat_map]. rewrite (Hf a) by (left; reflexivity).
  rewrite IH by (intros a' Ha'; apply Hf; right; exact Ha'). reflexivity.
Qed.

Lemma in_range (n : nat) (i : Z) : In i (range n) <-> 0 <= i < Z.of_nat n.
Proof.
  unfold range. rewrite in_map_iff. split.
  - intros (k & <- & Hk). apply in_seq in Hk. lia.
  - intros Hi. exists (Z.to_nat i). split; [lia |]. apply in_seq. lia.
Qed.

Lemma get_teams_penguins_valid (b : Board) (team : TeamEnum) :
  get_teams_penguins b team = inr (teams_penguins b team).
Proof.
  unfold get_teams_penguins, teams_penguins. apply flat_mapE_valid.
  intros i Hi. apply in_range in Hi. unfold penguins_at.
  rewrite from_index_valid by lia. fold (cell i).
  destruct (TeamEnum_eqb team ONE && bit_at (one b) i),
           (TeamEnum_eqb team TWO && bit_at (two b) i); reflexivity.
Qed.

Lemma in_scan_order (x y : Z) : In (x, y) scan_order <-> 0 <= x <= 7 /\ 0 <= y <= 7.
Proof.
  unfold scan_order. rewrite in_flat_map. split.
  - intros (x' & Hx & Hy). apply in_map_iff in Hy as (y' & [= <- <-] & Hy).
    apply in_range in Hx, Hy. lia.
  - intros [Hx Hy]. exists x. split; [apply in_range; lia |].
    apply in_map_iff. exists y. split; [reflexivity | apply in_range; lia].
Qed.

Lemma flat_map_single {A B} (f : A -> B) (l : list A) :
  flat_map (fun a => [f a]) l = map f l.
Proof.
  induction l as [| a l IH]; [reflexivity |].
  cbn [flat_map map app]. rewrite IH. reflexivity.
Qed.

Lemma scan_fields_valid (b : Board) : scan_fields b = inr (fields b).
Proof.
  unfold scan_fields, fields. rewrite <- flat_map_single.
  apply flat_mapE_valid.
  intros [x y] Hxy. apply in_scan_order in Hxy. cbn [fst snd].
  assert (Hidx : to_index (mkCartesian x y) = Some (y * 8 + x))
    by (apply to_index_Some; cbn [cx cy]; lia).
  rewrite Hidx. cbn [with_index]. rewrite get_field_valid by lia. reflexivity.
Qed.

(** ** Rays *)

Lemma hex_index_Some (h : HexCoordinate) (i : Z) :
  hex_index h = Some i -> 0 <= i <= 63 /\ from_index i = inr (to_cartesian h).
Proof.
  unfold hex_index. intros Hi. apply to_index_Some in Hi as (Hx & Hy & ->).
  split; [lia |]. rewrite from_index_valid by lia.
  destruct (to_cartesian h) as [x y]; cbn [cx cy] in *.
  do 2 f_equal; Z.div_mod_to_equations; lia.
Qed.

Lemma ray_continues_landing (b : Board) (h : HexCoordinate) :
  ray_continues b (hex_index h) = inr (landing_cell b h).
Proof.
  unfold ray_continues, landing_cell.
  destruct (hex_index h) as [i |] eqn:Hi; [| reflexivity].
  apply hex_index_Some in Hi as [Hi _].
  unfold is_valid. destruct (Z.ltb_spec i 64); [| lia].
  rewrite is_occupied_valid, get_fish_valid by lia. cbn [bind].
  destruct (has_bit (one b) i || has_bit (two b) i); reflexivity.
Qed.

Section Ray.
Variables (b : Board) (origin : HexCoordinate) (direction : Vector) (team : TeamEnum).
Hypothesis origin_aligned : aligned origin.
Hypothesis direction_hex : In direction directions.

Lemma direction_cases :
  (d_y direction = 0 /\ (d_x direction = 2 \/ d_x direction = -2)) \/
  ((d_y direction = 1 \/ d_y direction = -1) /\
   (d_x direction = 1 \/ d_x direction = -1)).
Proof.
  cbn in direction_hex.
  destruct direction_hex as [<- | [<- | [<- | [<- | [<- | [<- | []]]]]]];
    cbn; lia.
Qed.

Lemma ray_cell_coordinates (k : nat) :
  hx (ray_cell origin direction k) = hx origin + d_x direction * Z.of_nat k /\
  hy (ray_cell origin direction k) = hy origin + d_y direction * Z.of_nat k.
Proof. split; reflexivity. Qed.

Lemma ray_cell_step (k : nat) :
  add_vector (ray_cell origin direction k) direction = ray_cell origin direction (S k).
Proof.
  unfold ray_cell, add_vector, addition, scalar_product, hex_to_vector. cbn.
  f_equal; lia.
Qed.

Lemma ray_cell_first : add_vector origin direction = ray_cell origin direction 1.
Proof.
  unfold ray_cell, add_vector, addition, scalar_product, hex_to_vector. cbn.
  f_equal; lia.
Qed.

Lemma ray_cell_aligned (k : nat) : aligned (ray_cell origin direction k).
Proof.
  unfold aligned in *. destruct (ray_cell_coordinates k) as [-> ->].
  destruct direction_cases as [[-> [-> | ->]] | [[-> | ->] [-> | ->]]];
    Z.div_mod_to_equations; lia.
Qed.

Lemma ray_leaves_board (i : Z) :
  hex_index origin = Some i -> hex_index (ray_cell origin direction 8) = None.
Proof.
  unfold hex_index. intros Hi. apply to_index_Some in Hi as (Hx & Hy & _).
  apply to_index_None. rewrite to_cartesian_x, to_cartesian_y in *.
  destruct (ray_cell_coordinates 8) as [-> ->].
  destruct direction_cases as [[Hdy [Hdx | Hdx]] | [[Hdy | Hdy] _]];
    rewrite ?Hdy, ?Hdx; try lia.
  - replace (hy origin + 0 * Z.of_nat 8) with (hy origin) by lia.
    destruct (odd_row_cases (hy origin)) as [[Ho _] | [Ho _]]; rewrite Ho in *;
      Z.div_mod_to_equations; lia.
  - replace (hy origin + 0 * Z.of_nat 8) with (hy origin) by lia.
    destruct (odd_row_cases (hy origin)) as [[Ho _] | [Ho _]]; rewrite Ho in *;
      Z.div_mod_to_equations; lia.
Qed.

Lemma step_index_ray (k : nat) (i : Z) :
  hex_index (ray_cell origin direction k) = Some i ->
  from_index i = inr (to_cartesian (ray_cell origin direction k)) /\
  to_hex (to_cartesian (ray_cell origin direction k)) = ray_cell origin direction k /\
  step_index i direction = inr (hex_index (ray_cell origin direction (S k))).
Proof.
  intros Hi. destruct (hex_index_Some _ _ Hi) as [_ Hfrom].
  pose proof (to_hex_to_cartesian _ (ray_cell_aligned k)) as Hhex.
  repeat split; try assumption.
  unfold step_index. rewrite Hfrom. cbn [bind]. rewrite Hhex, ray_cell_step.
  reflexivity.
Qed.

Lemma directive_loop_ray (fuel k : nat) (moves : list Move) (i0 : Z) :
  hex_index origin = Some i0 ->
  (1 <= k <= 8)%nat -> (9 - k <= fuel)%nat ->
  exists n : nat,
    (k - 1 <= n <= 7)%nat /\
    directive_loop b fuel origin direction team
      (hex_index (ray_cell origin direction k)) moves
    = inr (moves ++ map (slide origin direction team) (seq k (S n - k))) /\
    (forall j, (k <= j <= n)%nat -> landing_cell b (ray_cell origin direction j) = true) /\
    landing_cell b (ray_cell origin direction (S n)) = false.
Proof.
  intros Horigin. revert k moves.
  induction fuel as [| fuel IH]; intros k moves Hk Hfuel; [lia |].
  cbn [directive_loop]. rewrite ray_continues_landing. cbn [bind].
  destruct (landing_cell b (ray_cell origin direction k)) eqn:Hland.
  - assert (Hk8 : k <> 8%nat).
    { intros ->. unfold landing_cell in Hland.
      rewrite (ray_leaves_board _ Horigin) in Hland. discriminate. }
    destruct (hex_index (ray_cell origin direction k)) as [i |] eqn:Hi;
      [| unfold landing_cell in Hland; rewrite Hi in Hland; discriminate].
    destruct (step_index_ray k i Hi) as (-> & Hhex & ->). cbn [bind].
    rewrite Hhex.
    destruct (IH (S k) (moves ++ [mkMove (Some origin) (ray_cell origin direction k) team]))
      as (n & Hn & Hloop & Hall & Hstop); [lia | lia |].
    exists n. split; [lia |]. split; [| split; [| exact Hstop]].
    + rewrite Hloop, <- app_assoc. f_equal.
      replace (S n - k)%nat with (S (S n - S k)) by lia. reflexivity.
    + intros j Hj. destruct (Nat.eq_dec j k) as [-> | Hne]; [exact Hland |].
      apply Hall. lia.
  - exists (k - 1)%nat. split; [lia |].
    replace (S (k - 1)) with k by lia. replace (k - k)%nat with 0%nat by lia.
    split; [| split; [intros j Hj; lia | exact Hland]].
    cbn [seq map]. rewrite app_nil_r.
    destruct (hex_index (ray_cell origin direction k)); reflexivity.
Qed.

End Ray.

(** C6: from an index that holds a penguin of the team, along one of the six
    hex directions, [get_directive_moves] returns one move per cell of the
    ray, in increasing step order, for exactly the cells before the first
    one that is off the board, occupied or without fish; on the board with a
    penguin of team ONE at index 0 and one fish at indices 1 and 2, the
    moves along (2,0) are two and land at index 1, then at index 2. *)
Theorem get_directive_moves_ray (b : Board) (index : Z) (direction : Vector)
    (team : TeamEnum)
    (Hindex : 0 <= index <= 63)
    (Hdirection : In direction directions)
    (Hteam : is_team b team index = inr true) :
  (exists (c : CartesianCoordinate) (n : nat),
     from_index index = inr c /\ (n <= 7)%nat /\
     get_directive_moves b index direction team
     = inr (map (slide (to_hex c) direction team) (seq 1 n)) /\
     (forall k, (1 <= k <= n)%nat ->
        landing_cell b (ray_cell (to_hex c) direction k) = true) /\
     landing_cell b (ray_cell (to_hex c) direction (S n)) = false) /\
  (exists m1 m2 : Move,
     get_directive_moves scenarioA 0 (mkVector 2 0) ONE = inr [m1; m2] /\
     hex_index (to_value m1) = Some 1 /\ hex_index (to_value m2) = Some 2).
Proof.
  split.
  - set (origin := to_hex (cell index)).
    assert (Horigin : hex_index origin = Some index).
    { unfold hex_index, origin. rewrite to_cartesian_to_hex. apply cell_index, Hindex. }
    destruct (directive_loop_ray b origin direction team (to_hex_aligned _) Hdirection
                ray_fuel 1 [] index Horigin) as (n & Hn & Hloop & Hall & Hstop);
      [lia | unfold ray_fuel; lia |].
    exists (cell index), n. split; [apply from_index_valid, Hindex |]. split; [lia |].
    split; [| split; [exact Hall | exact Hstop]].
    unfold get_directive_moves, get_directive_moves_fuel.
    rewrite from_index_valid by exact Hindex. cbn [bind]. fold (cell index). fold origin.
    rewrite Hteam. cbn [bind].
    unfold step_index. rewrite from_index_valid by exact Hindex.
    cbn [bind]. fold (cell index). fold origin.
    rewrite (ray_cell_first origin direction).
    fold (hex_index (ray_cell origin direction 1)). unfold ret. cbn [bind].
    rewrite Hloop. replace (S n - 1)%nat with n by lia. reflexivity.
  - eexists _, _. vm_compute. repeat split.
Qed.

Lemma get_directive_moves_ray_witness :
  (0 <= 0 <= 63 /\ In (mkVector 2 0) directions /\
   is_team scenarioA ONE 0 = inr true) /\
  (exists (c : CartesianCoordinate) (n : nat),
     from_index 0 = inr c /\ (n <= 7)%nat /\
     get_directive_moves scenarioA 0 (mkVector 2 0) ONE
     = inr (map (slide (to_hex c) (mkVector 2 0) ONE) (seq 1 n)) /\
     (forall k, (1 <= k <= n)%nat ->
        landing_cell scenarioA (ray_cell (to_hex c) (mkVector 2 0) k) = true) /\
     landing_cell scenarioA (ray_cell (to_hex c) (mkVector 2 0) (S n)) = false).
Proof.
  assert (Hdir : In (mkVector 2 0) directions)
    by (do 4 right; left; reflexivity).
  split; [split; [lia | split; [exact Hdir | reflexivity]] |].
  apply (get_directive_moves_ray scenarioA 0 (mkVector 2 0) ONE);
    [lia | exact Hdir | reflexivity].
Defined.

(** ** Updating in place *)

Lemma update_mask_eval (st : store) (self : ref) (b : Board)
    (get : Board -> Z) (set : Board -> Z -> Board) (op : Z -> Z -> Z) (i : Z) :
  st !! self = Some (OBoard b) -> 0 <= i ->
  update_mask self get set op (Some i) st
  = (<[self := OBoard (set b (op (get b) (Z.shiftl 1 i)))]> st, inr tt).
Proof.
  intros Hself Hi. unfold update_mask, mbind, read_board, lift, write.
  rewrite Hself. cbn [with_index]. rewrite shl1_valid by exact Hi. reflexivity.
Qed.

Lemma lookup_written (st : store) (self : ref) (o o' : object) :
  st !! self = Some o -> <[self := o']> st !! self = Some o'.
Proof. intros H. apply list_lookup_insert_eq. eapply lookup_lt_Some, H. Qed.

(** C10: [Board.update] on a move with an origin XORs the origin bit and
    ORs the destination bit into the acting team's mask; on a placement it
    ORs the destination bit into that mask.  The other team's mask and the
    five fish masks keep their value, and so does every other object. *)
Theorem update_acting_team_mask_only (st : store) (self mv : ref) (b : Board)
    (m : Move) (from_coord : option Z) (to_coord : Z)
    (Hself : st !! self = Some (OBoard b))
    (Hmove : st !! mv = Some (OMove m))
    (Hfrom : match from_value m, from_coord with
             | Some origin, Some i => hex_index origin = Some i
             | None, None => True
             | _, _ => False
             end)
    (Hto : hex_index (to_value m) = Some to_coord) :
  exists b' : Board,
    update self mv st = (<[self := OBoard b']> st, inr tt) /\
    team_mask (team m) b' = moved_mask (team_mask (team m) b) from_coord to_coord /\
    other_team_mask (team m) b' = other_team_mask (team m) b /\
    fish_0 b' = fish_0 b /\ fish_1 b' = fish_1 b /\ fish_2 b' = fish_2 b /\
    fish_3 b' = fish_3 b /\ fish_4 b' = fish_4 b.
Proof.
  pose proof (hex_index_Some _ _ Hto) as [Hj _].
  unfold update, mbind at 1, read_move. rewrite Hmove.
  fold (hex_index (to_value m)). rewrite Hto.
  destruct (from_value m) as [origin |], from_coord as [i |]; try contradiction.
  - fold (hex_index origin). rewrite Hfrom.
    pose proof (hex_index_Some _ _ Hfrom) as [Hi _].
    destruct (team m); unfold mbind;
      rewrite (update_mask_eval st self b) by (assumption || lia);
      erewrite update_mask_eval by (eauto using lookup_written || lia);
      rewrite (list_insert_insert_eq st self);
      eexists; (split; [reflexivity |]); cbn; repeat split.
  - destruct (team m);
      rewrite (update_mask_eval st self b) by (assumption || lia);
      eexists; (split; [reflexivity |]); cbn; repeat split.
Qed.

Lemma update_acting_team_mask_only_witness :
  let st := [OBoard (mkBoard 1 0 0 2 0 0 0);
             OMove (mkMove (Some (mkHex 0 0)) (mkHex 2 0) ONE)] in
  (st !! 0%nat = Some (OBoard (mkBoard 1 0 0 2 0 0 0)) /\
   st !! 1%nat = Some (OMove (mkMove (Some (mkHex 0 0)) (mkHex 2 0) ONE)) /\
   hex_index (mkHex 0 0) = Some 0 /\ hex_index (mkHex 2 0) = Some 1) /\
  exists b' : Board,
    update 0%nat 1%nat st = (<[0%nat := OBoard b']> st, inr tt) /\
    team_mask ONE b' = moved_mask 1 (Some 0) 1 /\
    other_team_mask ONE b' = 0 /\
    fish_0 b' = 0 /\ fish_1 b' = 2 /\ fish_2 b' = 0 /\ fish_3 b' = 0 /\ fish_4 b' = 0.
Proof.
  intros st. split; [repeat split |].
  apply (update_acting_team_mask_only st 0%nat 1%nat (mkBoard 1 0 0 2 0 0 0)
           (mkMove (Some (mkHex 0 0)) (mkHex 2 0) ONE) (Some 0) 1);
    reflexivity.
Defined.

(** ** Evaluations *)

(** C2: [Board.move] contradicts its documentation.  On the board with a
    penguin of team ONE at index 0 and one fish at index 1, the slide from
    index 0 to index 1 returns the receiver itself with every mask as it was
    (the penguin has not moved), and the placement onto index 1 ends in
    [AttributeError]. *)
Theorem move_leaves_penguins_in_place :
  let b := mkBoard 1 0 0 2 0 0 0 in
  let slide_0_1 := mkMove (Some (mkHex 0 0)) (mkHex 2 0) ONE in
  let place_1 := mkMove None (mkHex 2 0) ONE in
  let st := [OBoard b; OMove slide_0_1; OMove place_1] in
  hex_index (mkHex 0 0) = Some 0 /\ hex_index (mkHex 2 0) = Some 1 /\
  move 0%nat 1%nat st = (st, inr 0%nat) /\
  move 0%nat 2%nat st = (st, inl AttributeError) /\
  update 0%nat 1%nat st
  = ([OBoard (mkBoard 2 0 0 2 0 0 0); OMove slide_0_1; OMove place_1], inr tt).
Proof. vm_compute. repeat split. Qed.

(** C9: [get_most_fish] compares the masks, not the fish counts.  With four
    fish at index 0 and one fish at index 1 it returns the field at index 1
    (one fish): [fish_1 = 2] is the largest mask. *)
Theorem get_most_fish_takes_largest_mask :
  let b := mkBoard 0 0 0 2 0 0 1 in
  get_fish b 0 = inr 4 /\ get_fish b 1 = inr 1 /\
  (forall i, 2 <= i <= 63 -> get_fish b i = inr 0) /\
  get_most_fish b = inr [mkField (mkHex 2 0) None 1] /\
  get_field b 0 = inr (mkField (mkHex 0 0) None 4).
Proof.
  cbv zeta. split; [reflexivity |]. split; [reflexivity |].
  split; [| split; vm_compute; reflexivity].
  intros i Hi. rewrite get_fish_valid by lia. unfold fish_at, has_bit.
  cbn [fish_0 fish_1 fish_2 fish_3 fish_4]. rewrite !Z.land_0_l. cbn [Z.eqb negb].
  assert (Hbit : forall k, k = 1 \/ k = 2 -> Z.land k (Z.shiftl 1 i) = 0).
  { intros k Hk. apply Z.bits_inj'. intros n Hn.
    rewrite Z.land_spec, Z.bits_0, Z.shiftl_spec by lia.
    destruct (Z.eq_dec n i) as [-> | Hne].
    - replace (Z.testbit k i) with false; [reflexivity |].
      symmetry. destruct Hk as [-> | ->].
      + replace i with (Z.succ (i - 1)) by lia. apply Z.bits_above_log2; simpl; lia.
      + replace i with (Z.succ (i - 1)) by lia. apply Z.bits_above_log2; simpl; lia.
    - replace (Z.testbit 1 (n - i)) with false; [apply andb_false_r |].
      symmetry. destruct (Z.ltb_spec n i).
      + apply Z.testbit_neg_r. lia.
      + apply Z.bits_above_log2; simpl; lia. }
  rewrite (Hbit 1), (Hbit 2) by lia. reflexivity.
Qed.

(** ** Legal moves and construction *)

Lemma get_possible_moves_eval (st : store) (board : ref) (b : Board) (t : Team) :
  st !! board = Some (OBoard b) ->
  run (_get_possible_moves board t) st
  = if (length (teams_penguins b (name t)) <? 4)%nat
    then (st ++ map OMove (placements b (name t)),
          inr (seq (length st) (length (placements b (name t)))))
    else (st, inl TypeError).
Proof.
  intros Hb. unfold run, _get_possible_moves, mbind, read_board, lift.
  rewrite Hb, scan_fields_valid, get_teams_penguins_valid.
  destruct (length (teams_penguins b (name t)) <? 4)%nat eqn:Hlen; [reflexivity |].
  rewrite Hb, get_teams_penguins_valid.
  destruct (teams_penguins b (name t)) as [| p ps]; [discriminate Hlen | reflexivity].
Qed.

Lemma get_possible_moves_no_board (st : store) (board : ref) (t : Team) :
  (forall b, st !! board <> Some (OBoard b)) ->
  run (_get_possible_moves board t) st = (st, inl AttributeError).
Proof.
  intros Hb. unfold run, _get_possible_moves, mbind, read_board.
  destruct (st !! board) as [[b | f | m | s] |]; try reflexivity.
  exfalso. exact (Hb b eq_refl).
Qed.

Lemma seq_nil_iff (start len : nat) : seq start len = [] <-> len = 0%nat.
Proof. destruct len; cbn; split; congruence. Qed.

Lemma current_team_from_turn_eval (st : store) (board : ref) (b : Board)
    (turn : Z) (start : Team) :
  st !! board = Some (OBoard b) ->
  run (current_team_from_turn board turn start) st
  = if (length (teams_penguins b (name (nominal_team start turn))) <? 4)%nat
    then (st ++ map OMove (placements b (name (nominal_team start turn))),
          inr (team_after_skip b (nominal_team start turn)))
    else (st, inl TypeError).
Proof.
  intros Hb. unfold run, current_team_from_turn, mbind.
  pose proof (get_possible_moves_eval st board b (nominal_team start turn) Hb) as H.
  unfold run in H. rewrite H.
  destruct (length (teams_penguins b (name (nominal_team start turn))) <? 4)%nat;
    [| reflexivity].
  unfold team_after_skip.
  destruct (placements b (name (nominal_team start turn))); reflexivity.
Qed.

Lemma Forall2_seq_lookup (pre post : store) (ms : list Move) :
  Forall2 (fun r mv => (pre ++ map OMove ms ++ post) !! r = Some (OMove mv))
          (seq (length pre) (length ms)) ms.
Proof.
  revert pre. induction ms as [| mv ms IH]; intros pre; [constructor |].
  cbn [length seq map]. constructor.
  - rewrite lookup_app_r by lia. rewrite Nat.sub_diag. reflexivity.
  - specialize (IH (pre ++ [OMove mv])).
    rewrite length_app in IH. cbn [length] in IH.
    replace (length pre + 1)%nat with (S (length pre)) in IH by lia.
    rewrite <- app_assoc in IH. exact IH.
Qed.

Lemma GameState_init_constructed (st st1 : store) (bref : ref) (n : Z) (start : Team)
    (fref : ref) (last : option ref) (self : ref) :
  run (GameState_init bref n start fref last) st = (st1, inr self) ->
  exists b s, constructed st st1 bref n start fref last self b s.
Proof.
  intros Hrun.
  destruct (st !! bref) as [[b | f | m | s0] |] eqn:Hb.
  2-5: exfalso; unfold run, GameState_init, mbind at 1, current_team_from_turn, mbind at 1 in Hrun;
       pose proof (get_possible_moves_no_board st bref (nominal_team start n)) as Hno;
       unfold run in Hno; rewrite Hno in Hrun by (intros b; rewrite Hb; discriminate);
       discriminate Hrun.
  exists b.
  unfold run, GameState_init, mbind in Hrun.
  pose proof (current_team_from_turn_eval st bref b n start Hb) as H1.
  unfold run in H1. rewrite H1 in Hrun. clear H1.
  destruct (length (teams_penguins b (name (nominal_team start n))) <? 4)%nat eqn:Hnom;
    [| discriminate Hrun].
  set (st' := st ++ map OMove (placements b (name (nominal_team start n)))) in *.
  assert (Hb' : st' !! bref = Some (OBoard b)) by (apply lookup_app_l_Some, Hb).
  pose proof (current_team_from_turn_eval st' bref b n start Hb') as H2.
  unfold run in H2. rewrite H2, Hnom in Hrun. clear H2.
  set (st'' := st' ++ map OMove (placements b (name (nominal_team start n)))) in *.
  assert (Hb'' : st'' !! bref = Some (OBoard b)) by (apply lookup_app_l_Some, Hb').
  unfold read_board, lift in Hrun. rewrite Hb'', get_teams_penguins_valid in Hrun.
  pose proof (get_possible_moves_eval st'' bref b
                (team_after_skip b (nominal_team start n)) Hb'') as H3.
  unfold run in H3. rewrite H3 in Hrun. clear H3.
  set (ct := team_after_skip b (nominal_team start n)) in *.
  destruct (length (teams_penguins b (name ct)) <? 4)%nat eqn:Hcur; [| discriminate Hrun].
  unfold alloc in Hrun. injection Hrun as <- <-.
  eexists. split; cbn [start_team board turn last_move fishes current_team possible_moves].
  - exact Hb.
  - apply lookup_app_l_Some, lookup_app_l_Some, Hb''.
  - rewrite lookup_app_r by lia. rewrite Nat.sub_diag. reflexivity.
  - intros l o Hl. unfold st'', st'. repeat apply lookup_app_l_Some. exact Hl.
  - repeat split.
  - apply Nat.ltb_lt, Hnom.
  - reflexivity.
  - apply Nat.ltb_lt, Hcur.
  - rewrite <- app_assoc. apply Forall2_seq_lookup.
Qed.

(** While a team has fewer than four penguins, its legal moves are the
    placements, one per field without penguin and with exactly one fish. *)
Lemma placement_phase_moves (st : store) (bref : ref) (b : Board) (t : Team) :
  st !! bref = Some (OBoard b) ->
  (length (teams_penguins b (name t)) < 4)%nat ->
  exists st1 refs,
    run (_get_possible_moves bref t) st = (st1, inr refs) /\
    Forall2 (fun r mv => st1 !! r = Some (OMove mv)) refs (placements b (name t)) /\
    forall mv, In mv (placements b (name t)) <->
      exists i, 0 <= i <= 63 /\ penguin (field_at b i) = None /\
                fish (field_at b i) = 1 /\
                mv = mkMove None (coordinate (field_at b i)) (name t).
Proof.
  intros Hb Hlen. rewrite (get_possible_moves_eval st bref b t Hb).
  apply Nat.ltb_lt in Hlen. rewrite Hlen.
  eexists _, _. split; [reflexivity |]. split.
  - pose proof (Forall2_seq_lookup st [] (placements b (name t))) as H.
    rewrite app_nil_r in H. exact H.
  - intros mv. unfold placements, fields. rewrite in_map_iff. split.
    + intros (f & <- & Hf). apply filter_In in Hf as [Hf Hp].
      apply in_map_iff in Hf as ([x y] & <- & Hxy). apply in_scan_order in Hxy.
      cbn [fst snd] in *. exists (y * 8 + x). unfold placeable in Hp.
      destruct (penguin (field_at b (y * 8 + x))); [discriminate |].
      apply Z.eqb_eq in Hp. repeat split; lia.
    + intros (i & Hi & Hpen & Hfish & ->). exists (field_at b i).
      split; [reflexivity |]. apply filter_In. split.
      * apply in_map_iff. exists (i mod 8, i / 8). cbn [fst snd]. split.
        -- f_equal. Z.div_mod_to_equations; lia.
        -- apply in_scan_order. Z.div_mod_to_equations; lia.
      * unfold placeable. rewrite Hpen. apply Z.eqb_eq, Hfish.
Qed.

(** C1: a team with four penguins gets no slide moves.
    [_get_possible_moves] calls [possible_moves_from] with the penguin as
    its only argument, which is a [TypeError]; the constructor calls
    [_get_possible_moves], so no [GameState] comes into being either. *)
Theorem four_penguins_raise_TypeError :
  let b := mkBoard 15 0 0 1024 0 0 0 in
  let st := [OBoard b; OFishes (mkFishes 0 0)] in
  let team_one := mkTeam ONE [] 0 in
  (exists ps, get_teams_penguins b ONE = inr ps /\ length ps = 4%nat) /\
  run (_get_possible_moves 0%nat team_one) st = (st, inl TypeError) /\
  run (GameState_init 0%nat 0 team_one 1%nat None) st = (st, inl TypeError).
Proof.
  intros b st team_one.
  split; [eexists; split; vm_compute; reflexivity |].
  split; vm_compute; reflexivity.
Qed.

(** C3: [perform_move] on a legal move does not return a state.  On the
    board with one fish at index 0, at turn 0 with ONE starting, the
    constructed state has one legal move, the placement onto index 0, and
    [perform_move] on that very object ends in [AttributeError], raised by
    [Board.move] on the absent origin. *)
Theorem perform_move_on_placement_raises :
  let st := [OBoard (mkBoard 0 0 0 1 0 0 0); OFishes (mkFishes 0 0)] in
  exists st1 self s m,
    run (GameState_init 0%nat 0 (mkTeam ONE [] 0) 1%nat None) st = (st1, inr self) /\
    st1 !! self = Some (OGameState s) /\
    possible_moves s = [m] /\
    st1 !! m = Some (OMove (mkMove None (mkHex 0 0) ONE)) /\
    run (perform_move self m) st1 = (st1, inl AttributeError).
Proof.
  intros st. eexists _, _, _, _.
  split; [vm_compute; reflexivity |].
  split; [vm_compute; reflexivity |].
  split; [reflexivity |].
  split; vm_compute; reflexivity.
Qed.

Lemma is_valid_move_In (s : GameState) (m : ref) :
  is_valid_move s m = true <-> In m (possible_moves s).
Proof.
  unfold is_valid_move. rewrite existsb_exists. split.
  - intros (x & Hx & Heq). apply Nat.eqb_eq in Heq. subst. exact Hx.
  - intros Hm. exists m. split; [exact Hm | apply Nat.eqb_refl].
Qed.

(** A legal placement makes [Board.move] fail on the absent origin, before
    anything is written. *)
Lemma perform_move_placement (st : store) (self m : ref) (s : GameState) (mv : Move) :
  st !! self = Some (OGameState s) ->
  In m (possible_moves s) ->
  st !! m = Some (OMove mv) -> from_value mv = None ->
  run (perform_move self m) st = (st, inl AttributeError).
Proof.
  intros Hs Hin Hm Hfrom. apply is_valid_move_In in Hin.
  unfold run, perform_move, mbind at 1, read_state. rewrite Hs, Hin. cbn [negb].
  unfold mbind at 1, move, mbind at 1, read_move. rewrite Hm, Hfrom. reflexivity.
Qed.

Lemma placements_have_no_origin (b : Board) (t : TeamEnum) (mv : Move) :
  In mv (placements b t) -> from_value mv = None /\ team mv = t.
Proof.
  unfold placements. intros H. apply in_map_iff in H as (f & <- & _).
  split; reflexivity.
Qed.

Lemma Forall2_In_l {A B} (R : A -> B -> Prop) (l : list A) (l' : list B) (a : A) :
  Forall2 R l l' -> In a l -> exists a', In a' l' /\ R a a'.
Proof.
  induction 1 as [| x y l l' Hxy _ IH]; intros Hin; [destruct Hin |].
  destruct Hin as [-> | Hin].
  - exists y. split; [left; reflexivity | exact Hxy].
  - destruct (IH Hin) as (a' & Ha' & HR). exists a'. split; [right; exact Ha' | exact HR].
Qed.

(** No legal move of a constructed state gets past [Board.move]. *)
Lemma legal_move_is_never_applied (st st1 st2 : store) (bref : ref) (n : Z)
    (start : Team) (fref : ref) (last : option ref) (self m : ref) (s : GameState) :
  run (GameState_init bref n start fref last) st = (st1, inr self) ->
  extends st1 st2 ->
  st2 !! self = Some (OGameState s) ->
  In m (possible_moves s) ->
  run (perform_move self m) st2 = (st2, inl AttributeError).
Proof.
  intros Hinit Hext Hself Hlegal.
  destruct (GameState_init_constructed _ _ _ _ _ _ _ _ Hinit) as (b & s' & C).
  pose proof (Hext _ _ (c_self _ _ _ _ _ _ _ _ _ _ C)) as Hs'. rewrite Hself in Hs'.
  injection Hs' as <-.
  destruct (Forall2_In_l _ _ _ _ (c_moves _ _ _ _ _ _ _ _ _ _ C) Hlegal)
    as (mv & Hmv & Hm).
  apply placements_have_no_origin in Hmv as [Hfrom _].
  exact (perform_move_placement st2 self m s mv Hself Hlegal (Hext _ _ Hm) Hfrom).
Qed.



(** ** Where the invalid-move error comes from *)

Lemma quietE_bind {A B} (m : E A) (f : A -> E B) :
  quietE m -> (forall a, quietE (f a)) -> quietE (bind m f).
Proof.
  intros Hm Hf. destruct m as [e | a]; [| apply Hf].
  intros [= ->]. apply Hm. reflexivity.
Qed.

Lemma quietE_with_index {A} (i : option Z) (f : Z -> E A) :
  (forall z, quietE (f z)) -> quietE (with_index i f).
Proof. intros Hf. destruct i; [apply Hf | discriminate]. Qed.

Lemma quietE_flat_mapE {A B} (f : A -> E (list B)) (l : list A) :
  (forall a, quietE (f a)) -> quietE (flat_mapE f l).
Proof.
  intros Hf. induction l as [| a l IH]; [discriminate |].
  cbn [flat_mapE]. apply quietE_bind; [apply Hf |].
  intros x. apply quietE_bind; [exact IH | discriminate].
Qed.

Ltac quietE_leaf := unfold quietE, ret, raise; discriminate.

Ltac quietE_step :=
  match goal with
  | |- quietE (bind _ _) => apply quietE_bind; [| intros ?]
  | |- quietE (with_index _ _) => apply quietE_with_index; intros ?
  | |- quietE (flat_mapE _ _) => apply quietE_flat_mapE; intros ?
  | |- quietE (if ?c then _ else _) => destruct c
  | |- quietE (match ?x with _ => _ end) => destruct x
  | |- quietE _ => solve [quietE_leaf | auto with quiet]
  end.

Create HintDb quiet.

Lemma quietE_shl1 (i : Z) : quietE (shl1 i).
Proof. unfold shl1. repeat quietE_step. Qed.
#[local] Hint Resolve quietE_shl1 : quiet.

Lemma quietE_bit_set (mask i : Z) : quietE (bit_set mask i).
Proof. unfold bit_set. repeat quietE_step. Qed.
#[local] Hint Resolve quietE_bit_set : quiet.

Lemma quietE_from_index (i : Z) : quietE (from_index i).
Proof. unfold from_index. repeat quietE_step. Qed.
#[local] Hint Resolve quietE_from_index : quiet.

Lemma quietE_get_fish (b : Board) (i : Z) : quietE (get_fish b i).
Proof. unfold get_fish. repeat quietE_step. Qed.
#[local] Hint Resolve quietE_get_fish : quiet.

Lemma quietE_get_penguin (b : Board) (h : HexCoordinate) : quietE (get_penguin b h).
Proof. unfold get_penguin. repeat quietE_step. Qed.
#[local] Hint Resolve quietE_get_penguin : quiet.

Lemma quietE_get_field (b : Board) (i : Z) : quietE (get_field b i).
Proof. unfold get_field. repeat quietE_step. Qed.
#[local] Hint Resolve quietE_get_field : quiet.

Lemma quietE_get_teams_penguins (b : Board) (t : TeamEnum) :
  quietE (get_teams_penguins b t).
Proof. rewrite get_teams_penguins_valid. discriminate. Qed.
#[local] Hint Resolve quietE_get_teams_penguins : quiet.

Lemma quietE_scan_fields (b : Board) : quietE (scan_fields b).
Proof. rewrite scan_fields_valid. discriminate. Qed.
#[local] Hint Resolve quietE_scan_fields : quiet.

Lemma quietE_is_occupied (b : Board) (i : Z) : quietE (is_occupied b i).
Proof. unfold is_occupied. repeat quietE_step. Qed.
#[local] Hint Resolve quietE_is_occupied : quiet.

Lemma quietE_is_team (b : Board) (t : TeamEnum) (i : Z) : quietE (is_team b t i).
Proof. unfold is_team. repeat quietE_step. Qed.
#[local] Hint Resolve quietE_is_team : quiet.

Lemma quietE_step_index (i : Z) (d : Vector) : quietE (step_index i d).
Proof. unfold step_index. repeat quietE_step. Qed.
#[local] Hint Resolve quietE_step_index : quiet.

Lemma quietE_ray_continues (b : Board) (i : option Z) : quietE (ray_continues b i).
Proof. unfold ray_continues. repeat quietE_step. Qed.
#[local] Hint Resolve quietE_ray_continues : quiet.

Lemma quietE_directive_loop (b : Board) (fuel : nat) (origin : HexCoordinate)
    (d : Vector) (t : TeamEnum) (i : option Z) (moves : list Move) :
  quietE (directive_loop b fuel origin d t i moves).
Proof.
  revert i moves. induction fuel as [| fuel IH]; intros i moves; [discriminate |].
  cbn [directive_loop]. repeat quietE_step.
Qed.
#[local] Hint Resolve quietE_directive_loop : quiet.

Lemma quietE_possible_moves_from_call (b : Board) (args : list argument) :
  quietE (possible_moves_from_call b args).
Proof.
  unfold possible_moves_from_call, possible_moves_from, get_directive_moves,
    get_directive_moves_fuel.
  repeat quietE_step.
Qed.
#[local] Hint Resolve quietE_possible_moves_from_call : quiet.

Lemma quiet_mbind {A B} (m : M A) (f : A -> M B) :
  quiet m -> (forall a, quiet (f a)) -> quiet (mbind m f).
Proof.
  intros Hm Hf st. unfold mbind. specialize (Hm st).
  destruct (m st) as [st' [e | a]]; cbn [snd] in *; [| apply Hf].
  intros [= ->]. apply Hm. reflexivity.
Qed.

Lemma quiet_lift {A} (e : E A) : quietE e -> quiet (lift e).
Proof. intros He st. exact He. Qed.

Lemma quiet_read_board (l : ref) : quiet (read_board l).
Proof. intros st. unfold read_board. destruct (st !! l) as [[| | |] |]; discriminate. Qed.

Lemma quiet_read_fishes (l : ref) : quiet (read_fishes l).
Proof. intros st. unfold read_fishes. destruct (st !! l) as [[| | |] |]; discriminate. Qed.

Lemma quiet_read_move (l : ref) : quiet (read_move l).
Proof. intros st. unfold read_move. destruct (st !! l) as [[| | |] |]; discriminate. Qed.

Lemma quiet_write (l : ref) (o : object) : quiet (write l o).
Proof. intros st. discriminate. Qed.

Lemma quiet_alloc (o : object) : quiet (alloc o).
Proof. intros st. discriminate. Qed.

Lemma quiet_alloc_moves (ms : list Move) : quiet (alloc_moves ms).
Proof. intros st. discriminate. Qed.

Lemma quiet_mret {A} (a : A) : quiet (mret a).
Proof. intros st. discriminate. Qed.

#[local] Hint Resolve quiet_read_board quiet_read_fishes quiet_read_move quiet_write
  quiet_alloc quiet_alloc_moves quiet_mret : quiet.

Ltac quiet_step :=
  match goal with
  | |- quiet (mbind _ _) => apply quiet_mbind; [| intros ?]
  | |- quiet (lift _) => apply quiet_lift; repeat quietE_step
  | |- quiet (if ?c then _ else _) => destruct c
  | |- quiet (match ?x with _ => _ end) => destruct x
  | |- quiet (mraise _) => intros ?; discriminate
  | |- quiet _ => solve [auto with quiet]
  end.

Lemma quiet_update_mask (self : ref) (get : Board -> Z) (set : Board -> Z -> Board)
    (op : Z -> Z -> Z) (index : option Z) :
  quiet (update_mask self get set op index).
Proof. unfold update_mask. repeat quiet_step. Qed.
#[local] Hint Resolve quiet_update_mask : quiet.

Lemma quiet_set_field (self : ref) (field : Field) : quiet (set_field self field).
Proof. unfold set_field. repeat quiet_step. Qed.
#[local] Hint Resolve quiet_set_field : quiet.

Lemma quiet_move (self mv : ref) : quiet (move self mv).
Proof. unfold move. repeat quiet_step. Qed.
#[local] Hint Resolve quiet_move : quiet.

Lemma quiet_add_fish (self : ref) (t : Team) (f : Z) : quiet (add_fish self t f).
Proof. unfold add_fish. repeat quiet_step. Qed.
#[local] Hint Resolve quiet_add_fish : quiet.

Lemma quiet_get_possible_moves (bref : ref) (t : Team) : quiet (_get_possible_moves bref t).
Proof. unfold _get_possible_moves. repeat quiet_step. Qed.
#[local] Hint Resolve quiet_get_possible_moves : quiet.

Lemma quiet_current_team_from_turn (bref : ref) (n : Z) (start : Team) :
  quiet (current_team_from_turn bref n start).
Proof. unfold current_team_from_turn. repeat quiet_step. Qed.
#[local] Hint Resolve quiet_current_team_from_turn : quiet.

Lemma quiet_GameState_init (bref : ref) (n : Z) (start : Team) (fref : ref)
    (last : option ref) :
  quiet (GameState_init bref n start fref last).
Proof. unfold GameState_init. repeat quiet_step. Qed.
#[local] Hint Resolve quiet_GameState_init : quiet.

(** C5, as stated, fails: a second [Move] object with the contents of the
    only legal move is rejected with the invalid-move error. *)
Lemma equal_but_distinct_move_is_rejected : ~ validates_structurally.
Proof.
  intros H.
  set (st := [OBoard (mkBoard 0 0 0 1 0 0 0); OFishes (mkFishes 0 0)]).
  set (st1 := fst (run (GameState_init 0%nat 0 (mkTeam ONE [] 0) 1%nat None) st)
              ++ [OMove (mkMove None (mkHex 0 0) ONE)]).
  set (s := mkGameState (mkTeam ONE [] 0) 0%nat 0 0 (mkTeam ONE [] 0) (mkTeam TWO [] 0)
                        None 1%nat [] [4%nat]).
  assert (Hs : st1 !! 5%nat = Some (OGameState s)) by (vm_compute; reflexivity).
  assert (Hm : st1 !! 6%nat = Some (OMove (mkMove None (mkHex 0 0) ONE)))
    by (vm_compute; reflexivity).
  destruct (H st1 5%nat 6%nat s _ Hs Hm) as [Hrej _].
  apply Hrej; [vm_compute; reflexivity |].
  exists 4%nat, (mkMove None (mkHex 0 0) ONE).
  split; [left; reflexivity |]. split; vm_compute; reflexivity.
Qed.

(** C5, amended: [perform_move] raises the invalid-move error exactly when
    the given object is not, by identity, one of the state's legal moves, and
    then nothing has been written.  In particular a move that is not one of
    those objects is rejected whatever its contents. *)
Theorem perform_move_rejects_by_identity (st : store) (self m : ref) (s : GameState)
    (Hself : st !! self = Some (OGameState s)) :
  (snd (run (perform_move self m) st) = inl InvalidMoveError <->
   ~ In m (possible_moves s)) /\
  (~ In m (possible_moves s) ->
   run (perform_move self m) st = (st, inl InvalidMoveError)).
Proof.
  assert (Hreject : ~ In m (possible_moves s) ->
                    run (perform_move self m) st = (st, inl InvalidMoveError)).
  { intros Hnot. unfold run, perform_move, mbind at 1, read_state. rewrite Hself.
    destruct (is_valid_move s m) eqn:Hv; [| reflexivity].
    apply is_valid_move_In in Hv. contradiction. }
  split; [| exact Hreject]. split.
  - intros Hraise Hin. apply is_valid_move_In in Hin.
    unfold run, perform_move, mbind at 1, read_state in Hraise.
    rewrite Hself, Hin in Hraise. cbn [negb] in Hraise.
    match type of Hraise with
    | snd (?c st) = _ => assert (Q : quiet c) by (repeat quiet_step)
    end.
    exact (Q st Hraise).
  - intros Hnot. rewrite (Hreject Hnot). reflexivity.
Qed.

Lemma perform_move_rejects_by_identity_witness :
  let st := [OGameState (mkGameState (mkTeam ONE [] 0) 1%nat 0 0 (mkTeam ONE [] 0)
                           (mkTeam TWO [] 0) None 2%nat [] [3%nat]);
             OBoard (mkBoard 0 0 0 1 0 0 0); OFishes (mkFishes 0 0);
             OMove (mkMove None (mkHex 0 0) ONE);
             OMove (mkMove None (mkHex 0 0) ONE)] in
  exists s, st !! 0%nat = Some (OGameState s) /\
    (snd (run (perform_move 0%nat 4%nat) st) = inl InvalidMoveError <->
     ~ In 4%nat (possible_moves s)) /\
    (~ In 4%nat (possible_moves s) ->
     run (perform_move 0%nat 4%nat) st = (st, inl InvalidMoveError)).
Proof.
  intros st. eexists. split; [reflexivity |].
  apply (perform_move_rejects_by_identity st 0%nat 4%nat). reflexivity.
Defined.

(** * Further properties *)

(** ** Vectors, neighbours, moves *)

(** X1: a multiple of a vector that passes [is_one_hex_move] passes it too;
    the test does not tell a neighbour from a cell further along the ray. *)
Theorem is_one_hex_move_scalar_product (v : Vector) (k : Z)
    (Hv : is_one_hex_move v = true) :
  is_one_hex_move (scalar_product v k) = true.
Proof.
  unfold is_one_hex_move, scalar_product in *. cbn [d_x d_y].
  apply orb_true_iff in Hv as [Habs | Hrow]; apply orb_true_iff.
  - left. apply Z.eqb_eq in Habs. apply Z.eqb_eq. rewrite !Z.abs_mul, Habs. reflexivity.
  - right. apply andb_true_iff in Hrow as [Heven Hzero].
    apply Z.eqb_eq in Heven, Hzero. apply andb_true_iff. split; apply Z.eqb_eq.
    + rewrite Z.mul_comm, Z.mul_mod, Heven, Z.mul_0_r by lia. reflexivity.
    + rewrite Hzero. reflexivity.
Qed.

Lemma is_one_hex_move_scalar_product_witness :
  is_one_hex_move (mkVector 2 0) = true /\
  is_one_hex_move (scalar_product (mkVector 2 0) 3) = true.
Proof.
  split; [reflexivity |].
  apply (is_one_hex_move_scalar_product (mkVector 2 0) 3). reflexivity.
Defined.

Lemma directions_closed_under_negation (d : Vector) :
  In d directions -> In (mkVector (- d_x d) (- d_y d)) directions.
Proof.
  cbn. intros [<- | [<- | [<- | [<- | [<- | [<- | []]]]]]]; cbn; tauto.
Qed.

Lemma directions_not_null (d : Vector) : In d directions -> d_x d <> 0.
Proof.
  cbn. intros [<- | [<- | [<- | [<- | [<- | [<- | []]]]]]]; cbn; lia.
Qed.

Lemma directions_keep_alignment (d : Vector) :
  In d directions -> (d_x d - d_y d) mod 2 = 0.
Proof.
  cbn. intros [<- | [<- | [<- | [<- | [<- | [<- | []]]]]]]; reflexivity.
Qed.

(** X2: being a neighbour is symmetric, no coordinate is its own neighbour,
    and the neighbours of a coordinate of the doubled grid are coordinates of
    the doubled grid. *)
Theorem get_neighbors_symmetric (h n : HexCoordinate)
    (Hn : In n (get_neighbors h)) :
  In h (get_neighbors n) /\ n <> h /\ (aligned h -> aligned n).
Proof.
  unfold get_neighbors in *. apply in_map_iff in Hn as (d & <- & Hd).
  split; [| split].
  - apply in_map_iff. exists (mkVector (- d_x d) (- d_y d)).
    split; [| apply directions_closed_under_negation, Hd].
    destruct h as [x y]. unfold add_vector, addition, hex_to_vector. cbn.
    f_equal; lia.
  - intros Heq. apply directions_not_null in Hd. apply Hd.
    apply (f_equal hx) in Heq. cbn in Heq. lia.
  - unfold aligned. intros Hh. pose proof (directions_keep_alignment d Hd) as Hpar.
    cbn. Z.div_mod_to_equations. lia.
Qed.

Lemma get_neighbors_symmetric_witness :
  In (mkHex 3 1) (get_neighbors (mkHex 2 0)) /\
  In (mkHex 2 0) (get_neighbors (mkHex 3 1)) /\ mkHex 3 1 <> mkHex 2 0 /\
  (aligned (mkHex 2 0) -> aligned (mkHex 3 1)).
Proof.
  assert (H : In (mkHex 3 1) (get_neighbors (mkHex 2 0)))
    by (do 2 right; left; reflexivity).
  split; [exact H |].
  exact (get_neighbors_symmetric (mkHex 2 0) (mkHex 3 1) H).
Defined.

(** X3: reversing twice gives the move back when it has an origin; a
    placement comes back as a slide from [HexCoordinate(0, 0)]. *)
Theorem reverse_twice (m : Move) :
  (forall origin, from_value m = Some origin -> reverse (reverse m) = m) /\
  (from_value m = None ->
   reverse (reverse m) = mkMove (Some (mkHex 0 0)) (to_value m) (team m)).
Proof.
  destruct m as [[o |] t tm]; split; cbn; try discriminate; reflexivity.
Qed.

(** ** Coordinates *)

(** X4: a Cartesian coordinate of the board is recovered from its linear
    index. *)
Theorem from_index_of_to_index (c : CartesianCoordinate) (i : Z)
    (Hi : to_index c = Some i) :
  from_index i = inr c /\ 0 <= i <= 63.
Proof.
  apply to_index_Some in Hi as (Hx & Hy & ->). split; [| lia].
  rewrite from_index_valid by lia. destruct c as [x y]; cbn [cx cy] in *.
  do 2 f_equal; Z.div_mod_to_equations; lia.
Qed.

Lemma from_index_of_to_index_witness :
  to_index (mkCartesian 3 5) = Some 43 /\
  from_index 43 = inr (mkCartesian 3 5) /\ 0 <= 43 <= 63.
Proof.
  split; [reflexivity |].
  apply (from_index_of_to_index (mkCartesian 3 5) 43). reflexivity.
Defined.

(** X5: a hex coordinate whose column is within the range where the
    doubles of [to_cartesian] are exact survives the trip to Cartesian
    coordinates and back exactly when its column has the parity of its row;
    the others are moved to a neighbouring column. *)
Theorem to_hex_of_to_cartesian_iff (h : HexCoordinate)
    (Hcolumn : within_double_precision h) :
  to_hex (to_cartesian h) = h <-> (hx h - hy h) mod 2 = 0.
Proof.
  split; [| apply to_hex_to_cartesian].
  intros Heq. rewrite <- Heq. apply to_hex_aligned.
Qed.

Lemma to_hex_of_to_cartesian_iff_witness :
  within_double_precision (mkHex 3 1) /\
  (to_hex (to_cartesian (mkHex 3 1)) = mkHex 3 1 <-> (3 - 1) mod 2 = 0) /\
  within_double_precision (mkHex 4 1) /\
  (to_hex (to_cartesian (mkHex 4 1)) = mkHex 4 1 <-> (4 - 1) mod 2 = 0).
Proof.
  assert (H3 : within_double_precision (mkHex 3 1))
    by (unfold within_double_precision; cbn; lia).
  assert (H4 : within_double_precision (mkHex 4 1))
    by (unfold within_double_precision; cbn; lia).
  split; [exact H3 |]. split; [exact (to_hex_of_to_cartesian_iff (mkHex 3 1) H3) |].
  split; [exact H4 |]. exact (to_hex_of_to_cartesian_iff (mkHex 4 1) H4).
Defined.

(** X6: outside 0..63 [from_index] raises [IndexError], and so do
    [get_field] and [get_directive_moves], which start with it. *)
Theorem index_out_of_range (b : Board) (i : Z) (d : Vector) (t : TeamEnum)
    (Hi : i < 0 \/ 63 < i) :
  from_index i = inl IndexError /\
  get_field b i = inl IndexError /\
  get_directive_moves b i d t = inl IndexError /\
  possible_moves_from b i t = inl IndexError.
Proof.
  assert (Hfrom : from_index i = inl IndexError).
  { unfold from_index.
    destruct (Z.leb_spec 0 i), (Z.leb_spec i 63); try lia; reflexivity. }
  repeat split; try exact Hfrom.
  - unfold get_field. rewrite Hfrom. reflexivity.
  - unfold get_directive_moves, get_directive_moves_fuel. rewrite Hfrom. reflexivity.
  - unfold possible_moves_from, get_directive_moves, get_directive_moves_fuel.
    cbn [directions flat_mapE]. rewrite Hfrom. reflexivity.
Qed.

Lemma index_out_of_range_witness :
  (64 < 0 \/ 63 < 64) /\
  from_index 64 = inl IndexError /\
  get_field scenarioA 64 = inl IndexError /\
  get_directive_moves scenarioA 64 (mkVector 2 0) ONE = inl IndexError /\
  possible_moves_from scenarioA 64 ONE = inl IndexError.
Proof.
  split; [right; lia |].
  apply (index_out_of_range scenarioA 64 (mkVector 2 0) ONE). right. lia.
Defined.

(** ** Bits *)

Lemma testbit_1 (n : Z) : Z.testbit 1 n = (n =? 0).
Proof.
  destruct (Z.eqb_spec n 0) as [-> | Hn]; [reflexivity |].
  destruct (Z.ltb_spec n 0); [apply Z.testbit_neg_r; lia |].
  apply Z.bits_above_log2; cbn; lia.
Qed.

Lemma has_bit_testbit (m i : Z) : 0 <= i -> has_bit m i = Z.testbit m i.
Proof.
  intros Hi. unfold has_bit.
  assert (H : Z.land m (Z.shiftl 1 i) = Z.shiftl (Z.b2z (Z.testbit m i)) i).
  { apply Z.bits_inj'. intros n Hn.
    rewrite Z.land_spec, !Z.shiftl_spec, testbit_1 by lia.
    destruct (Z.eqb_spec (n - i) 0) as [H0 | H0].
    - replace n with i by lia. rewrite Z.sub_diag, Z.b2z_bit0. apply andb_true_r.
    - rewrite andb_false_r. destruct (Z.testbit m i); cbn [Z.b2z].
      + rewrite testbit_1. symmetry. apply Z.eqb_neq, H0.
      + rewrite Z.bits_0. reflexivity. }
  rewrite H. destruct (Z.testbit m i); cbn [Z.b2z].
  - rewrite Z.shiftl_1_l. destruct (Z.eqb_spec (2 ^ i) 0) as [H0 | _]; [| reflexivity].
    pose proof (Z.pow_pos_nonneg 2 i). lia.
  - rewrite Z.shiftl_0_l. reflexivity.
Qed.

Lemma bit_at_testbit (m i : Z) : 0 <= i -> bit_at m i = Z.testbit m i.
Proof.
  intros Hi. unfold bit_at.
  change 1 with (Z.ones 1) at 1. rewrite Z.land_ones by lia.
  change (2 ^ 1) with 2. rewrite <- Z.bit0_mod, Z.shiftr_spec by lia.
  rewrite Z.add_0_l. destruct (Z.testbit m i); reflexivity.
Qed.

Lemma lor_has_bit (m i : Z) :
  0 <= i -> has_bit m i = true -> Z.lor m (Z.shiftl 1 i) = m.
Proof.
  intros Hi Hb. rewrite has_bit_testbit in Hb by exact Hi.
  apply Z.bits_inj'. intros n Hn.
  rewrite Z.lor_spec, Z.shiftl_spec, testbit_1 by lia.
  destruct (Z.eqb_spec (n - i) 0) as [H0 | H0]; [| apply orb_false_r].
  replace n with i by lia. rewrite Hb. reflexivity.
Qed.

Lemma has_bit_lor (m i k : Z) :
  0 <= i -> 0 <= k ->
  has_bit (Z.lor m (Z.shiftl 1 i)) k = has_bit m k || (k =? i).
Proof.
  intros Hi Hk. rewrite !has_bit_testbit, Z.lor_spec, Z.shiftl_spec, testbit_1 by lia.
  f_equal. destruct (Z.eqb_spec (k - i) 0), (Z.eqb_spec k i); try lia; reflexivity.
Qed.

(** ** Reading a board *)

Lemma bit_set_negative (m i : Z) : i < 0 -> bit_set m i = inl ValueError.
Proof.
  intros Hi. unfold bit_set, shl1. destruct (Z.ltb_spec i 0); [reflexivity | lia].
Qed.

(** X7: [is_valid] lets every negative index pass, yet on a negative index
    [is_occupied], [is_team], [get_fish] and [contains_field] raise
    [ValueError] (negative shift count). *)
Theorem negative_index_is_valid_but_raises (b : Board) (t : TeamEnum) (i : Z)
    (Hi : i < 0) :
  is_valid i = true /\
  is_occupied b i = inl ValueError /\
  is_team b t i = inl ValueError /\
  get_fish b i = inl ValueError /\
  contains_field b i = inl ValueError.
Proof.
  split; [unfold is_valid; apply Z.ltb_lt; lia |].
  unfold is_occupied, is_team, get_fish, contains_field.
  rewrite !bit_set_negative by exact Hi.
  repeat split; try reflexivity. destruct t; reflexivity.
Qed.

Lemma negative_index_is_valid_but_raises_witness :
  -1 < 0 /\
  is_valid (-1) = true /\
  is_occupied scenarioA (-1) = inl ValueError /\
  is_team scenarioA ONE (-1) = inl ValueError /\
  get_fish scenarioA (-1) = inl ValueError /\
  contains_field scenarioA (-1) = inl ValueError.
Proof.
  split; [lia |].
  apply (negative_index_is_valid_but_raises scenarioA ONE (-1)). lia.
Defined.



Lemma is_team_valid (b : Board) (t : TeamEnum) (i : Z) :
  0 <= i -> is_team b t i = inr (has_bit (team_mask t b) i).
Proof. intros Hi. destruct t; apply bit_set_valid, Hi. Qed.

(** X9: on an index of the board [get_field] agrees with the predicates:
    the field's coordinate is the one of the index, it has a penguin exactly
    when [is_occupied] holds, the penguin stands on the field's coordinate
    and belongs to a team for which [is_team] holds, and the fish count is
    the one of [get_fish]. *)
Theorem get_field_agrees_with_predicates (b : Board) (i : Z) (Hi : 0 <= i <= 63) :
  exists f, get_field b i = inr f /\
    hex_index (coordinate f) = Some i /\
    is_occupied b i = inr (has_penguin f) /\
    get_fish b i = inr (fish f) /\
    (forall p, penguin f = Some p ->
       position p = coordinate f /\ is_team b (penguin_team p) i = inr true) /\
    (forall t, get_team f = Some t -> is_team b t i = inr true).
Proof.
  exists (field_at b i). split; [apply get_field_valid, Hi |].
  assert (Hteam : forall p, penguin (field_at b i) = Some p ->
            position p = coordinate (field_at b i) /\
            is_team b (penguin_team p) i = inr true).
  { intros p. cbn [field_at penguin coordinate]. unfold penguin_at.
    destruct (has_bit (one b) i) eqn:H1; [| destruct (has_bit (two b) i) eqn:H2].
    - intros [= <-]. cbn. rewrite bit_set_valid, H1 by lia. split; reflexivity.
    - intros [= <-]. cbn. rewrite bit_set_valid, H2 by lia. split; reflexivity.
    - discriminate. }
  split; [| split; [| split; [| split; [exact Hteam |]]]].
  - cbn [field_at coordinate]. unfold hex_index.
    rewrite to_cartesian_to_hex. apply cell_index, Hi.
  - rewrite is_occupied_valid by lia. unfold has_penguin, field_at, penguin_at.
    cbn [penguin]. destruct (has_bit (one b) i), (has_bit (two b) i); reflexivity.
  - rewrite get_fish_valid by lia. reflexivity.
  - intros t. unfold get_team.
    destruct (penguin (field_at b i)) as [p |] eqn:Hp; [| discriminate].
    intros [= <-]. apply (Hteam p eq_refl).
Qed.

Lemma get_field_agrees_with_predicates_witness :
  0 <= 0 <= 63 /\
  exists f, get_field scenarioA 0 = inr f /\
    hex_index (coordinate f) = Some 0 /\
    is_occupied scenarioA 0 = inr (has_penguin f) /\
    get_fish scenarioA 0 = inr (fish f) /\
    (forall p, penguin f = Some p ->
       position p = coordinate f /\ is_team scenarioA (penguin_team p) 0 = inr true) /\
    (forall t, get_team f = Some t -> is_team scenarioA t 0 = inr true).
Proof.
  split; [lia |].
  apply (get_field_agrees_with_predicates scenarioA 0). lia.
Defined.

(** ** Scans of the board *)

Lemma contains_field_valid (b : Board) (i : Z) :
  0 <= i -> contains_field b i = inr (in_some_mask b i).
Proof.
  intros Hi. unfold contains_field, in_some_mask.
  rewrite !bit_set_valid by exact Hi. cbn [bind].
  destruct (has_bit (one b) i), (has_bit (two b) i), (has_bit (fish_0 b) i),
           (has_bit (fish_1 b) i), (has_bit (fish_2 b) i), (has_bit (fish_3 b) i);
    reflexivity.
Qed.

Lemma empty_bitmask_testbit (b : Board) (i : Z) :
  0 <= i -> Z.testbit (empty_bitmask b) i = negb (in_some_mask b i).
Proof.
  intros Hi. unfold empty_bitmask, in_some_mask.
  rewrite Z.lnot_spec, !Z.lor_spec, !has_bit_testbit by exact Hi. reflexivity.
Qed.



(** X11: [get_empty_fields] returns one field, without penguin and with
    fish 0, for each index from 0 to 62 that no mask contains, and nothing
    else: the cell at index 63 is never reported. *)
Theorem get_empty_fields_stops_at_62 (b : Board) :
  exists l, get_empty_fields b = inr l /\
    forall f, In f l <->
      exists i c, 0 <= i <= 62 /\ contains_field b i = inr false /\
                  from_index i = inr c /\ f = mkField (to_hex c) None 0.
Proof.
  set (g := fun i => if bit_at (empty_bitmask b) i
                     then [mkField (to_hex (cell i)) None (fish_at b i)] else []).
  assert (Hempty : forall i, 0 <= i ->
            bit_at (empty_bitmask b) i = negb (in_some_mask b i))
    by (intros i Hi; rewrite bit_at_testbit by exact Hi; apply empty_bitmask_testbit, Hi).
  assert (Hfish : forall i, in_some_mask b i = false -> fish_at b i = 0).
  { intros i. unfold in_some_mask, fish_at.
    destruct (has_bit (fish_0 b) i), (has_bit (fish_1 b) i), (has_bit (fish_2 b) i),
             (has_bit (fish_3 b) i), (has_bit (fish_4 b) i);
      rewrite ?orb_true_r; try discriminate; reflexivity. }
  exists (flat_map g (range 63)). split.
  - unfold get_empty_fields. apply flat_mapE_valid. intros i Hi.
    apply in_range in Hi. unfold g.
    destruct (bit_at (empty_bitmask b) i); [| reflexivity].
    rewrite from_index_valid by lia. cbn [bind]. fold (cell i).
    rewrite to_cartesian_to_hex, cell_index by lia. cbn [with_index].
    rewrite get_fish_valid by lia. reflexivity.
  - intros f. rewrite in_flat_map. split.
    + intros (i & Hi & Hf). apply in_range in Hi. unfold g in Hf.
      rewrite Hempty in Hf by lia.
      destruct (in_some_mask b i) eqn:Hin; [destruct Hf |].
      destruct Hf as [<- | []]. exists i, (cell i).
      rewrite contains_field_valid, Hin, (Hfish i Hin), from_index_valid by lia.
      repeat split; lia.
    + intros (i & c & Hi & Hc & Hfrom & ->). exists i.
      split; [apply in_range; lia |].
      rewrite contains_field_valid in Hc by lia. injection Hc as Hc.
      rewrite from_index_valid in Hfrom by lia. fold (cell i) in Hfrom.
      assert (Hcell : cell i = c) by congruence. subst c.
      unfold g. rewrite Hempty, Hc, (Hfish i Hc) by lia. left. reflexivity.
Qed.

Lemma filter_flat_map {A B} (p : B -> bool) (g : A -> list B) (l : list A) :
  List.filter p (flat_map g l) = flat_map (fun a => List.filter p (g a)) l.
Proof.
  induction l as [| a l IH]; [reflexivity |].
  cbn [flat_map]. rewrite List.filter_app, IH. reflexivity.
Qed.

Lemma get_penguins_valid (b : Board) :
  get_penguins b = inr (flat_map (both_penguins_at b) (range 64)).
Proof.
  unfold get_penguins. apply flat_mapE_valid. intros i Hi. apply in_range in Hi.
  unfold both_penguins_at. rewrite from_index_valid by lia. fold (cell i).
  destruct (bit_at (one b) i), (bit_at (two b) i); reflexivity.
Qed.

(** X12: the penguins of one team among those of [get_penguins], in the
    order of [get_penguins], are the list [get_teams_penguins] returns for
    that team. *)
Theorem get_penguins_of_team (b : Board) (t : TeamEnum) :
  exists all mine,
    get_penguins b = inr all /\ get_teams_penguins b t = inr mine /\
    List.filter (fun p => TeamEnum_eqb (penguin_team p) t) all = mine.
Proof.
  eexists _, _. split; [apply get_penguins_valid |].
  split; [apply get_teams_penguins_valid |].
  rewrite filter_flat_map. unfold teams_penguins.
  induction (range 64) as [| i l IH]; [reflexivity |].
  cbn [flat_map]. rewrite IH. f_equal.
  unfold both_penguins_at, penguins_at.
  destruct t, (bit_at (one b) i), (bit_at (two b) i); reflexivity.
Qed.

(** X13: [get_coordinates] returns the coordinates of the doubled grid
    whose linear index, from 0 to 63, is a set bit of the mask; bits from 64
    on are ignored. *)
Theorem get_coordinates_of_set_bits (bitboard : Z) :
  exists l, get_coordinates bitboard = inr l /\
    forall h, In h l <->
      exists i, 0 <= i <= 63 /\ Z.testbit bitboard i = true /\
                hex_index h = Some i /\ (hx h - hy h) mod 2 = 0.
Proof.
  set (g := fun i => if has_bit bitboard i then [to_hex (cell i)] else []).
  exists (flat_map g (range 64)). split.
  - unfold get_coordinates. apply flat_mapE_valid. intros i Hi. apply in_range in Hi.
    rewrite bit_set_valid by lia. cbn [bind]. unfold g.
    destruct (has_bit bitboard i); [| reflexivity].
    rewrite from_index_valid by lia. reflexivity.
  - intros h. rewrite in_flat_map. split.
    + intros (i & Hi & Hh). apply in_range in Hi. unfold g in Hh.
      rewrite has_bit_testbit in Hh by lia.
      destruct (Z.testbit bitboard i) eqn:Hbit; [| destruct Hh].
      destruct Hh as [<- | []]. exists i.
      split; [lia |]. split; [exact Hbit |]. split.
      * unfold hex_index. rewrite to_cartesian_to_hex. apply cell_index. lia.
      * apply to_hex_aligned.
    + intros (i & Hi & Hbit & Hidx & Hal). exists i. split; [apply in_range; lia |].
      unfold g. rewrite has_bit_testbit, Hbit by lia. left.
      destruct (hex_index_Some _ _ Hidx) as [_ Hfrom].
      rewrite from_index_valid in Hfrom by lia. fold (cell i) in Hfrom.
      assert (Hcell : cell i = to_cartesian h) by congruence.
      rewrite Hcell. apply to_hex_to_cartesian, Hal.
Qed.

Lemma count_bits_valid (fields : list Z) (index count : Z) :
  0 <= index ->
  count_bits fields index count = inr (count + masks_with_bit fields index).
Proof.
  intros Hi. unfold masks_with_bit. revert count.
  induction fields as [| f rest IH]; intros count.
  - cbn. f_equal. lia.
  - cbn [count_bits List.filter]. rewrite bit_set_valid by exact Hi. cbn [bind].
    rewrite IH. destruct (has_bit f index); cbn [length]; f_equal; lia.
Qed.

Lemma last_cons {A} (a : A) (l : list A) (d : A) :
  List.last (a :: l) d = List.last l a.
Proof.
  revert a d. induction l as [| x l IH]; intros a d; [reflexivity |].
  change (List.last (a :: x :: l) d) with (List.last (x :: l) d).
  rewrite (IH x d), (IH x a). reflexivity.
Qed.

Lemma bit_coordinate_loop_valid (fields indices : list Z) (count index : Z) :
  0 <= index -> Forall (fun i => 0 <= i) indices ->
  exists count',
    bit_coordinate_loop fields indices count index
    = inr (count', List.last indices index) /\ count <= count'.
Proof.
  intros Hindex Hall. revert count index Hindex.
  induction Hall as [| i rest Hi _ IH]; intros count index Hindex.
  - exists count. split; [reflexivity | lia].
  - cbn [bit_coordinate_loop]. rewrite count_bits_valid by exact Hindex. cbn [bind].
    destruct (IH (count + masks_with_bit fields index) i Hi) as (c & Hc & Hle).
    exists c. split.
    + rewrite Hc, last_cons. reflexivity.
    + unfold masks_with_bit in Hle. lia.
Qed.

Lemma range_nonnegative (n : nat) : Forall (fun i => 0 <= i) (range n).
Proof. apply List.Forall_forall. intros i Hi. apply in_range in Hi. lia. Qed.

Lemma get_bit_coordinate_eq (b : Board) :
  get_bit_coordinate b
  = (let* final := bit_coordinate_loop (masks b) (range 64) 0 0 in
     if fst final =? 1 then
       let* c := from_index (snd final) in ret (to_hex c)
     else raise ValueError)%err.
Proof. reflexivity. Qed.

Lemma bit_coordinate_loop_cons (fields : list Z) (i : Z) (rest : list Z)
    (count index : Z) :
  bit_coordinate_loop fields (i :: rest) count index
  = (let* count' := count_bits fields index count in
     bit_coordinate_loop fields rest count' i)%err.
Proof. reflexivity. Qed.

Lemma range_64_head : range 64 = 0 :: 1 :: map Z.of_nat (seq 2 62).
Proof. reflexivity. Qed.

(** X14: whenever [get_bit_coordinate] returns, it returns
    [HexCoordinate(15, 7)], the coordinate of index 63, wherever the single
    bit it counted is. *)
Theorem get_bit_coordinate_returns_last_cell (b : Board) (h : HexCoordinate)
    (Hh : get_bit_coordinate b = inr h) :
  h = mkHex 15 7 /\ hex_index h = Some 63.
Proof.
  destruct (bit_coordinate_loop_valid (masks b) (range 64) 0 0
              (Z.le_refl 0) (range_nonnegative 64)) as (c & Hloop & _).
  assert (Hlast : List.last (range 64) 0 = 63) by (vm_compute; reflexivity).
  rewrite get_bit_coordinate_eq, Hloop, Hlast in Hh. clear Hloop Hlast.
  unfold bind at 1 in Hh. cbn [fst snd] in Hh.
  destruct (c =? 1); [| discriminate Hh].
  rewrite from_index_valid in Hh by lia. unfold bind, ret in Hh.
  assert (Hh' : h = to_hex (mkCartesian (63 mod 8) (63 / 8))) by congruence.
  rewrite Hh'. split; vm_compute; reflexivity.
Qed.

Lemma get_bit_coordinate_returns_last_cell_witness :
  get_bit_coordinate (mkBoard 32 0 0 0 0 0 0) = inr (mkHex 15 7) /\
  mkHex 15 7 = mkHex 15 7 /\ hex_index (mkHex 15 7) = Some 63.
Proof.
  assert (H : get_bit_coordinate (mkBoard 32 0 0 0 0 0 0) = inr (mkHex 15 7))
    by (vm_compute; reflexivity).
  split; [exact H |].
  exact (get_bit_coordinate_returns_last_cell (mkBoard 32 0 0 0 0 0 0) (mkHex 15 7) H).
Defined.

(** X15: index 0 is counted twice, so [get_bit_coordinate] ends in
    [ValueError] on every board that has bit 0 in one of its masks, also when
    that is the only bit of the board. *)
Theorem get_bit_coordinate_rejects_bit_0 (b : Board) (m : Z)
    (Hm : In m (masks b)) (Hbit : Z.testbit m 0 = true) :
  get_bit_coordinate b = inl ValueError.
Proof.
  assert (Hone : 1 <= masks_with_bit (masks b) 0).
  { unfold masks_with_bit.
    assert (Hin : In m (List.filter (fun f => has_bit f 0) (masks b))).
    { apply filter_In. split; [exact Hm |]. rewrite has_bit_testbit by lia. exact Hbit. }
    destruct (List.filter (fun f => has_bit f 0) (masks b)); [destruct Hin |].
    cbn [length]. lia. }
  assert (Hrest : Forall (fun i => 0 <= i) (map Z.of_nat (seq 2 62))).
  { apply List.Forall_forall. intros i Hi. apply in_map_iff in Hi as (k & <- & _). lia. }
  destruct (bit_coordinate_loop_valid (masks b) (map Z.of_nat (seq 2 62))
              (0 + masks_with_bit (masks b) 0 + masks_with_bit (masks b) 0) 1
              Z.le_0_1 Hrest) as (c & Hloop & Hle).
  rewrite get_bit_coordinate_eq, range_64_head, bit_coordinate_loop_cons.
  rewrite (count_bits_valid (masks b) 0 0) by lia. cbn [bind].
  rewrite bit_coordinate_loop_cons.
  rewrite (count_bits_valid (masks b) 0) by lia. cbn [bind].
  rewrite Hloop. cbn [bind fst].
  destruct (Z.eqb_spec c 1); [lia | reflexivity].
Qed.

Lemma get_bit_coordinate_rejects_bit_0_witness :
  (In 1 (masks (mkBoard 1 0 0 0 0 0 0)) /\ Z.testbit 1 0 = true) /\
  get_bit_coordinate (mkBoard 1 0 0 0 0 0 0) = inl ValueError.
Proof.
  assert (Hin : In 1 (masks (mkBoard 1 0 0 0 0 0 0))) by (left; reflexivity).
  split; [split; [exact Hin | reflexivity] |].
  exact (get_bit_coordinate_rejects_bit_0 (mkBoard 1 0 0 0 0 0 0) 1 Hin eq_refl).
Defined.

(** ** The set algebra of boards *)

Lemma board_is_empty_iff (a : Board) :
  board_is_empty a = true <-> a = mkBoard 0 0 0 0 0 0 0.
Proof.
  destruct a as [o t f0 f1 f2 f3 f4]. unfold board_is_empty. cbn.
  rewrite !andb_true_iff, !Z.eqb_eq. split.
  - intros [[[[[[-> ->] ->] ->] ->] ->] ->]. reflexivity.
  - intros [= -> -> -> -> -> -> ->]. repeat split.
Qed.

Lemma board_equivalence_eq (a b : Board) : board_equivalence a b = true <-> a = b.
Proof.
  destruct a as [o t f0 f1 f2 f3 f4], b as [o' t' g0 g1 g2 g3 g4].
  unfold board_equivalence. cbn.
  rewrite !andb_true_iff, !Z.eqb_eq. split.
  - intros [[[[[[-> ->] ->] ->] ->] ->] ->]. reflexivity.
  - intros [= -> -> -> -> -> -> ->]. repeat split.
Qed.

(** X16: an empty board is neutral for [union] and [exclusive_or] and
    absorbing for [intersection]; taking it away changes nothing and taking
    anything away from it leaves it empty. *)
Theorem empty_board_laws (e b : Board) (He : board_is_empty e = true) :
  board_is_empty (board_intersection e b) = true /\
  board_union e b = b /\
  board_is_empty (board_difference e b) = true /\
  board_difference b e = b /\
  board_exclusive_or e b = b /\
  board_disjoint e b = true.
Proof.
  apply board_is_empty_iff in He. subst e. destruct b as [o t f0 f1 f2 f3 f4].
  unfold board_disjoint, board_intersection, board_union, board_difference,
    board_exclusive_or, maskwise. cbn [one two fish_0 fish_1 fish_2 fish_3 fish_4].
  rewrite !Z.land_0_l, !Z.lor_0_l, !Z.lxor_0_l.
  change (Z.lnot 0) with (-1). rewrite !Z.land_m1_r.
  repeat split.
Qed.

Lemma empty_board_laws_witness :
  board_is_empty (mkBoard 0 0 0 0 0 0 0) = true /\
  board_is_empty (board_intersection (mkBoard 0 0 0 0 0 0 0) scenarioA) = true /\
  board_union (mkBoard 0 0 0 0 0 0 0) scenarioA = scenarioA /\
  board_is_empty (board_difference (mkBoard 0 0 0 0 0 0 0) scenarioA) = true /\
  board_difference scenarioA (mkBoard 0 0 0 0 0 0 0) = scenarioA /\
  board_exclusive_or (mkBoard 0 0 0 0 0 0 0) scenarioA = scenarioA /\
  board_disjoint (mkBoard 0 0 0 0 0 0 0) scenarioA = true.
Proof.
  split; [reflexivity |].
  apply (empty_board_laws (mkBoard 0 0 0 0 0 0 0) scenarioA). reflexivity.
Defined.

(** X17: [equivalence] holds exactly for equal boards, and exactly when
    the [exclusive_or] of the two boards is empty. *)
Theorem equivalence_iff_exclusive_or_empty (a b : Board) :
  (board_equivalence a b = true <-> a = b) /\
  board_is_empty (board_exclusive_or a b) = board_equivalence a b.
Proof.
  split; [apply board_equivalence_eq |].
  destruct a as [o t f0 f1 f2 f3 f4], b as [o' t' g0 g1 g2 g3 g4].
  unfold board_is_empty, board_equivalence, board_exclusive_or, maskwise.
  cbn [one two fish_0 fish_1 fish_2 fish_3 fish_4].
  assert (H : forall x y, (Z.lxor x y =? 0) = (x =? y)).
  { intros x y. destruct (Z.eqb_spec x y) as [-> | Hne].
    - rewrite Z.lxor_nilpotent. reflexivity.
    - apply Z.eqb_neq. intros H0. apply Hne, Z.lxor_eq, H0. }
  rewrite !H. reflexivity.
Qed.

(** X18: [difference] and [intersection] split a board in two disjoint
    parts whose union is the board, and the difference is disjoint from the
    board taken away. *)
Theorem difference_and_intersection_partition (a b : Board) :
  board_disjoint (board_difference a b) b = true /\
  board_disjoint (board_difference a b) (board_intersection a b) = true /\
  board_union (board_difference a b) (board_intersection a b) = a.
Proof.
  assert (H1 : forall x y, Z.land (Z.land x (Z.lnot y)) y = 0).
  { intros x y. rewrite <- Z.land_assoc, (Z.land_comm (Z.lnot y)), Z.land_lnot_diag.
    apply Z.land_0_r. }
  assert (H2 : forall x y, Z.land (Z.land x (Z.lnot y)) (Z.land x y) = 0).
  { intros x y. rewrite (Z.land_comm x y), Z.land_assoc, (H1 x y). apply Z.land_0_l. }
  assert (H3 : forall x y, Z.lor (Z.land x (Z.lnot y)) (Z.land x y) = x).
  { intros x y. rewrite <- Z.land_lor_distr_r, (Z.lor_comm (Z.lnot y)), Z.lor_lnot_diag.
    apply Z.land_m1_r. }
  destruct a as [o t f0 f1 f2 f3 f4], b as [o' t' g0 g1 g2 g3 g4].
  unfold board_disjoint, board_is_empty, board_intersection, board_union,
    board_difference, maskwise.
  cbn [one two fish_0 fish_1 fish_2 fish_3 fish_4].
  rewrite !H1, !H2, !H3. repeat split.
Qed.

(** X19: [complement] is an involution, De Morgan's law relates it to
    [union] and [intersection], [implication] is the union with the
    complement and [difference] the intersection with it; and the complement
    of a board whose masks are not negative has only negative masks, that is,
    bits set beyond index 63. *)
Theorem complement_laws (a b : Board) :
  board_complement (board_complement a) = a /\
  board_complement (board_union a b)
  = board_intersection (board_complement a) (board_complement b) /\
  board_implication a b = board_union (board_complement a) b /\
  board_difference a b = board_intersection a (board_complement b) /\
  (Forall (fun m => 0 <= m) (masks a) ->
   Forall (fun m => m < 0) (masks (board_complement a))).
Proof.
  destruct a as [o t f0 f1 f2 f3 f4], b as [o' t' g0 g1 g2 g3 g4].
  unfold board_complement, board_union, board_intersection, board_implication,
    board_difference, maskwise, masks.
  cbn [one two fish_0 fish_1 fish_2 fish_3 fish_4].
  rewrite !Z.lnot_involutive, !Z.lnot_lor.
  repeat split.
  intros H. repeat (apply Forall_cons_iff in H as [? H]).
  unfold Z.lnot. repeat constructor; lia.
Qed.

(** ** Writing fields *)

Lemma update_mask_None (st : store) (self : ref) (b : Board)
    (get : Board -> Z) (set : Board -> Z -> Board) (op : Z -> Z -> Z) :
  st !! self = Some (OBoard b) ->
  update_mask self get set op None st = (st, inl TypeError).
Proof.
  intros Hself. unfold update_mask, mbind, read_board, lift. rewrite Hself. reflexivity.
Qed.

Lemma hex_index_range (h : HexCoordinate) (i : Z) : hex_index h = Some i -> 0 <= i <= 63.
Proof. intros H. apply (hex_index_Some h i H). Qed.

Lemma field_index_range (field : Field) (i : Z) :
  field_index field = Some i -> 0 <= i <= 63.
Proof.
  unfold field_index. destruct (penguin field); apply hex_index_range.
Qed.

Lemma set_field_eval (st : store) (self : ref) (b : Board) (field : Field) (i : Z) :
  st !! self = Some (OBoard b) ->
  field_index field = Some i ->
  (penguin field = None -> 0 <= fish field <= 4) ->
  run (set_field self field) st = (<[self := OBoard (put_field b field i)]> st, inr tt).
Proof.
  intros Hself Hidx Hfish. pose proof (field_index_range _ _ Hidx) as Hi.
  unfold run, set_field, put_field, field_index, hex_index in *.
  destruct (penguin field) as [p |].
  - rewrite Hidx. destruct (penguin_team p); apply update_mask_eval; (assumption || lia).
  - rewrite Hidx. specialize (Hfish eq_refl).
    destruct (Z.eqb_spec (fish field) 0); [apply update_mask_eval; (assumption || lia) |].
    destruct (Z.eqb_spec (fish field) 1); [apply update_mask_eval; (assumption || lia) |].
    destruct (Z.eqb_spec (fish field) 2); [apply update_mask_eval; (assumption || lia) |].
    destruct (Z.eqb_spec (fish field) 3); [apply update_mask_eval; (assumption || lia) |].
    destruct (Z.eqb_spec (fish field) 4); [apply update_mask_eval; (assumption || lia) |].
    lia.
Qed.

Lemma in_some_mask_false (b : Board) (i : Z) :
  in_some_mask b i = false ->
  has_bit (one b) i = false /\ has_bit (two b) i = false /\
  has_bit (fish_0 b) i = false /\ has_bit (fish_1 b) i = false /\
  has_bit (fish_2 b) i = false /\ has_bit (fish_3 b) i = false /\
  has_bit (fish_4 b) i = false.
Proof.
  unfold in_some_mask.
  destruct (has_bit (one b) i), (has_bit (two b) i), (has_bit (fish_0 b) i),
           (has_bit (fish_1 b) i), (has_bit (fish_2 b) i), (has_bit (fish_3 b) i),
           (has_bit (fish_4 b) i); cbn; intros H; try discriminate H; repeat split.
Qed.

Lemma has_bit_lor_same (m i : Z) : 0 <= i -> has_bit (Z.lor m (Z.shiftl 1 i)) i = true.
Proof.
  intros Hi. rewrite has_bit_lor, Z.eqb_refl by lia. apply orb_true_r.
Qed.

(** X20: a field written with [set_field] on a cell that no mask contains
    is read back by [get_field] at the cell's index: a fish count from 0 to 4
    without penguin, or a penguin standing on the field's coordinate with
    fish 0. *)
Theorem set_field_then_get_field (st : store) (self : ref) (b : Board)
    (field : Field) (i : Z)
    (Hself : st !! self = Some (OBoard b))
    (Hindex : hex_index (coordinate field) = Some i)
    (Haligned : (hx (coordinate field) - hy (coordinate field)) mod 2 = 0)
    (Hfree : contains_field b i = inr false)
    (Hfield : match penguin field with
              | Some p => position p = coordinate field /\ fish field = 0
              | None => 0 <= fish field <= 4
              end) :
  exists b', run (set_field self field) st = (<[self := OBoard b']> st, inr tt) /\
             get_field b' i = inr field.
Proof.
  pose proof (hex_index_range _ _ Hindex) as Hi.
  rewrite contains_field_valid in Hfree by lia. injection Hfree as Hfree.
  apply in_some_mask_false in Hfree as (H1 & H2 & H3 & H4 & H5 & H6 & H7).
  assert (Hcoord : to_hex (cell i) = coordinate field).
  { destruct (hex_index_Some _ _ Hindex) as [_ Hfrom].
    rewrite from_index_valid in Hfrom by lia. fold (cell i) in Hfrom.
    assert (Hc : cell i = to_cartesian (coordinate field)) by congruence.
    rewrite Hc. apply to_hex_to_cartesian, Haligned. }
  assert (Hidx : field_index field = Some i).
  { unfold field_index. destruct (penguin field) as [p |]; [| exact Hindex].
    destruct Hfield as [-> _]. exact Hindex. }
  exists (put_field b field i). split.
  - apply set_field_eval; try assumption.
    intros Hnone. rewrite Hnone in Hfield. exact Hfield.
  - rewrite get_field_valid by lia. unfold field_at, penguin_at, fish_at, put_field.
    rewrite Hcoord. destruct field as [h [[pos pt] |] f]; cbn [penguin fish coordinate] in *.
    + destruct Hfield as [Hpos ->]. cbn in Hpos. subst pos.
      destruct pt; cbn [penguin_team with_one with_two one two fish_0 fish_1 fish_2
                        fish_3 fish_4];
        rewrite ?has_bit_lor_same, ?H1, ?H2, ?H3, ?H4, ?H5, ?H6, ?H7 by lia; reflexivity.
    + assert (Hf : f = 0 \/ f = 1 \/ f = 2 \/ f = 3 \/ f = 4) by lia.
      destruct Hf as [-> | [-> | [-> | [-> | ->]]]];
        cbn [Z.eqb Pos.eqb with_fish_0 with_fish_1 with_fish_2 with_fish_3 with_fish_4
             one two fish_0 fish_1 fish_2 fish_3 fish_4];
        rewrite ?has_bit_lor_same, ?H1, ?H2, ?H3, ?H4, ?H5, ?H6, ?H7 by lia; reflexivity.
Qed.

Lemma set_field_then_get_field_witness :
  let st := [OBoard scenarioA] in
  let field := mkField (mkHex 6 0) None 3 in
  (st !! 0%nat = Some (OBoard scenarioA) /\
   hex_index (coordinate field) = Some 3 /\
   (hx (coordinate field) - hy (coordinate field)) mod 2 = 0 /\
   contains_field scenarioA 3 = inr false /\ 0 <= fish field <= 4) /\
  exists b', run (set_field 0%nat field) st = (<[0%nat := OBoard b']> st, inr tt) /\
             get_field b' 3 = inr field.
Proof.
  intros st field.
  assert (H4 : 0 <= fish field <= 4) by (cbn; lia).
  split; [repeat split; try reflexivity; apply H4 |].
  apply (set_field_then_get_field st 0%nat scenarioA field 3); try reflexivity.
  exact H4.
Defined.

Lemma fish_value_error (st : store) (self : ref) (field : Field) :
  penguin field = None -> fish field < 0 \/ 4 < fish field ->
  run (set_field self field) st = (st, inl FishValueError).
Proof.
  intros Hnone Hfish. unfold run, set_field. rewrite Hnone.
  destruct (Z.eqb_spec (fish field) 0); [lia |].
  destruct (Z.eqb_spec (fish field) 1); [lia |].
  destruct (Z.eqb_spec (fish field) 2); [lia |].
  destruct (Z.eqb_spec (fish field) 3); [lia |].
  destruct (Z.eqb_spec (fish field) 4); [lia |].
  reflexivity.
Qed.

(** X21: [set_field] on a field without penguin whose fish count is not
    0, 1, 2, 3 or 4 raises the fish-value error and writes nothing.  The
    index of the field's coordinate is computed first, so the coordinate is
    taken within the range where that computation is exact (and cannot
    overflow); it need not be on the board. *)
Theorem set_field_rejects_fish_value (st : store) (self : ref) (field : Field)
    (Hcolumn : within_double_precision (coordinate field))
    (Hnone : penguin field = None)
    (Hfish : fish field < 0 \/ 4 < fish field) :
  run (set_field self field) st = (st, inl FishValueError).
Proof.
  unfold run, set_field. rewrite Hnone.
  destruct (Z.eqb_spec (fish field) 0); [lia |].
  destruct (Z.eqb_spec (fish field) 1); [lia |].
  destruct (Z.eqb_spec (fish field) 2); [lia |].
  destruct (Z.eqb_spec (fish field) 3); [lia |].
  destruct (Z.eqb_spec (fish field) 4); [lia |].
  reflexivity.
Qed.

Lemma set_field_rejects_fish_value_witness :
  (within_double_precision (coordinate (mkField (mkHex 0 0) None 5)) /\
   penguin (mkField (mkHex 0 0) None 5) = None /\
   (fish (mkField (mkHex 0 0) None 5) < 0 \/ 4 < fish (mkField (mkHex 0 0) None 5))) /\
  run (set_field 0%nat (mkField (mkHex 0 0) None 5)) [OBoard scenarioA]
  = ([OBoard scenarioA], inl FishValueError).
Proof.
  assert (Hc : within_double_precision (coordinate (mkField (mkHex 0 0) None 5)))
    by (unfold within_double_precision; cbn; lia).
  assert (H : fish (mkField (mkHex 0 0) None 5) < 0 \/
              4 < fish (mkField (mkHex 0 0) None 5)) by (right; cbn; lia).
  split; [split; [exact Hc | split; [reflexivity | exact H]] |].
  exact (set_field_rejects_fish_value [OBoard scenarioA] 0%nat
           (mkField (mkHex 0 0) None 5) Hc eq_refl H).
Defined.

Lemma land_lnot_lor (m x : Z) : Z.land m (Z.lnot (Z.lor m x)) = 0.
Proof.
  rewrite Z.lnot_lor, Z.land_assoc, Z.land_lnot_diag. apply Z.land_0_l.
Qed.

Lemma included_put_field (b : Board) (field : Field) (i : Z) :
  included b (put_field b field i).
Proof.
  destruct b as [o t f0 f1 f2 f3 f4].
  unfold included, put_field, board_is_empty, board_difference, maskwise.
  destruct (penguin field) as [p |];
    [destruct (penguin_team p) |
     destruct (fish field =? 0); [| destruct (fish field =? 1);
       [| destruct (fish field =? 2); [| destruct (fish field =? 3);
         [| destruct (fish field =? 4)]]]]];
    cbn [with_one with_two with_fish_0 with_fish_1 with_fish_2 with_fish_3 with_fish_4
         one two fish_0 fish_1 fish_2 fish_3 fish_4];
    rewrite ?land_lnot_lor, ?Z.land_lnot_diag; reflexivity.
Qed.

Lemma set_field_success (st st' : store) (self : ref) (b : Board) (field : Field) :
  st !! self = Some (OBoard b) ->
  run (set_field self field) st = (st', inr tt) ->
  exists i, field_index field = Some i /\
            st' = <[self := OBoard (put_field b field i)]> st.
Proof.
  intros Hself Hrun.
  destruct (field_index field) as [i |] eqn:Hidx.
  - exists i. split; [reflexivity |].
    destruct (penguin field) as [p |] eqn:Hp.
    + rewrite (set_field_eval st self b field i Hself Hidx) in Hrun
        by (rewrite Hp; discriminate).
      congruence.
    + destruct (Z_le_dec 0 (fish field)) as [H0 |];
        [destruct (Z_le_dec (fish field) 4) as [H4 |] |].
      * rewrite (set_field_eval st self b field i Hself Hidx) in Hrun by (intros _; lia).
        congruence.
      * rewrite (fish_value_error st self field Hp) in Hrun by lia.
        discriminate Hrun.
      * rewrite (fish_value_error st self field Hp) in Hrun by lia.
        discriminate Hrun.
  - exfalso. unfold run, set_field, field_index, hex_index in *.
    destruct (penguin field) as [p |].
    + rewrite Hidx in Hrun.
      destruct (penguin_team p); rewrite (update_mask_None st self b) in Hrun by assumption;
        discriminate Hrun.
    + rewrite Hidx in Hrun.
      repeat (match type of Hrun with
              | context [if ?c then _ else _] => destruct c
              end;
              [rewrite (update_mask_None st self b) in Hrun by assumption;
               discriminate Hrun |]).
      discriminate Hrun.
Qed.

(** X22: [set_field] only adds: when it succeeds, every bit of every mask
    of the board is still set, and the written cell is contained in the
    board.  In particular a fish value already on the cell is not removed. *)
Theorem set_field_clears_nothing (st st' : store) (self : ref) (b : Board)
    (field : Field)
    (Hself : st !! self = Some (OBoard b))
    (Hrun : run (set_field self field) st = (st', inr tt)) :
  exists b' i,
    st' = <[self := OBoard b']> st /\
    board_is_empty (board_difference b b') = true /\
    field_index field = Some i /\ contains_field b' i = inr true.
Proof.
  destruct (set_field_success st st' self b field Hself Hrun) as (i & Hidx & ->).
  exists (put_field b field i), i.
  split; [reflexivity |]. split; [apply included_put_field |].
  split; [exact Hidx |].
  pose proof (field_index_range _ _ Hidx) as Hi.
  rewrite contains_field_valid by lia. f_equal.
  assert (Hvalid : penguin field = None -> 0 <= fish field <= 4).
  { intros Hnone.
    destruct (Z_le_dec 0 (fish field)); [destruct (Z_le_dec (fish field) 4) |];
      try lia;
      rewrite (fish_value_error st self field Hnone) in Hrun by lia;
      discriminate Hrun. }
  unfold in_some_mask, put_field.
  destruct (penguin field) as [p |].
  - destruct (penguin_team p);
      cbn [with_one with_two one two fish_0 fish_1 fish_2 fish_3 fish_4];
      rewrite has_bit_lor_same by lia; rewrite ?orb_true_r; reflexivity.
  - specialize (Hvalid eq_refl).
    assert (Hf : fish field = 0 \/ fish field = 1 \/ fish field = 2 \/
                 fish field = 3 \/ fish field = 4) by lia.
    destruct Hf as [-> | [-> | [-> | [-> | ->]]]];
      cbn [Z.eqb Pos.eqb with_fish_0 with_fish_1 with_fish_2 with_fish_3 with_fish_4
           one two fish_0 fish_1 fish_2 fish_3 fish_4];
      rewrite has_bit_lor_same by lia; rewrite ?orb_true_r; reflexivity.
Qed.

Lemma set_field_clears_nothing_witness :
  let st := [OBoard scenarioA] in
  let field := mkField (mkHex 2 0) None 3 in
  let st' := [OBoard (mkBoard 1 0 0 6 0 2 0)] in
  (st !! 0%nat = Some (OBoard scenarioA) /\
   run (set_field 0%nat field) st = (st', inr tt)) /\
  exists b' i,
    st' = <[0%nat := OBoard b']> st /\
    board_is_empty (board_difference scenarioA b') = true /\
    field_index field = Some i /\ contains_field b' i = inr true.
Proof.
  intros st field st'.
  assert (Hrun : run (set_field 0%nat field) st = (st', inr tt))
    by (vm_compute; reflexivity).
  split; [split; [reflexivity | exact Hrun] |].
  exact (set_field_clears_nothing st st' 0%nat scenarioA field eq_refl Hrun).
Defined.

(** ** [Board.move] and [Board.update] *)

Lemma included_trans (a b c : Board) : included a b -> included b c -> included a c.
Proof.
  assert (H : forall x y z, Z.land x (Z.lnot y) = 0 -> Z.land y (Z.lnot z) = 0 ->
                            Z.land x (Z.lnot z) = 0).
  { intros x y z Hxy Hyz. apply Z.bits_inj'. intros n Hn.
    apply (f_equal (fun v => Z.testbit v n)) in Hxy, Hyz.
    rewrite Z.land_spec, Z.lnot_spec, Z.bits_0 in * by lia.
    destruct (Z.testbit x n), (Z.testbit y n), (Z.testbit z n);
      cbn in *; congruence. }
  destruct a as [o t f0 f1 f2 f3 f4], b as [o' t' g0 g1 g2 g3 g4],
           c as [o'' t'' h0 h1 h2 h3 h4].
  unfold included, board_is_empty, board_difference, maskwise.
  cbn [one two fish_0 fish_1 fish_2 fish_3 fish_4].
  rewrite !andb_true_iff, !Z.eqb_eq.
  intros [[[[[[A1 A2] A3] A4] A5] A6] A7] [[[[[[B1 B2] B3] B4] B5] B6] B7].
  repeat split; eapply H; eassumption.
Qed.

(** Writing back the field read at an index keeps the team masks. *)
Lemma put_field_at_keeps_teams (b b1 : Board) (i : Z) :
  0 <= i <= 63 -> one b1 = one b -> two b1 = two b ->
  field_index (field_at b i) = Some i /\
  (penguin (field_at b i) = None -> 0 <= fish (field_at b i) <= 4) /\
  one (put_field b1 (field_at b i) i) = one b /\
  two (put_field b1 (field_at b i) i) = two b.
Proof.
  intros Hi H1 H2.
  assert (Hhex : hex_index (to_hex (cell i)) = Some i).
  { unfold hex_index. rewrite to_cartesian_to_hex. apply cell_index, Hi. }
  unfold field_index, put_field, field_at, penguin_at. cbn [penguin fish coordinate].
  destruct (has_bit (one b) i) eqn:Ho; [| destruct (has_bit (two b) i) eqn:Ht].
  - cbn [position penguin_team with_one one two].
    rewrite H1, lor_has_bit by (assumption || lia).
    repeat split; try assumption; try discriminate.
  - cbn [position penguin_team with_two one two].
    rewrite H2, lor_has_bit by (assumption || lia).
    repeat split; try assumption; try discriminate.
  - split; [exact Hhex |]. split.
    + intros _. unfold fish_at.
      repeat (match goal with |- context [if ?c then _ else _] => destruct c end;
              try lia).
    + repeat (match goal with |- context [if ?c then _ else _] => destruct c end;
              cbn [with_fish_0 with_fish_1 with_fish_2 with_fish_3 with_fish_4 one two];
              try (split; assumption)).
Qed.

(** X23: [Board.move] moves no penguin.  Whatever the move, neither team's
    mask changes and no bit of any mask is cleared; the call either returns
    its receiver or ends in an exception with the store as it was. *)
Theorem move_keeps_team_masks (st st' : store) (self mv : ref) (b : Board)
    (m : Move) (r : E ref)
    (Hself : st !! self = Some (OBoard b))
    (Hmove : st !! mv = Some (OMove m))
    (Hrun : run (move self mv) st = (st', r)) :
  exists b',
    st' !! self = Some (OBoard b') /\
    one b' = one b /\ two b' = two b /\
    board_is_empty (board_difference b b') = true /\
    (r = inr self \/ exists e, r = inl e /\ st' = st).
Proof.
  assert (Hstay : forall e, (st, inl e) = (st', r) ->
            exists b', st' !! self = Some (OBoard b') /\ one b' = one b /\
              two b' = two b /\ board_is_empty (board_difference b b') = true /\
              (r = inr self \/ exists e, r = inl e /\ st' = st)).
  { intros e [= <- <-]. exists b. split; [exact Hself |].
    split; [reflexivity |]. split; [reflexivity |].
    split; [apply (included_put_field b (mkField (mkHex 0 0) None 5) 0) |].
    right. exists e. split; reflexivity. }
  unfold run, move, mbind at 1, read_move in Hrun. rewrite Hmove in Hrun.
  destruct (from_value m) as [origin |]; [| apply (Hstay AttributeError); exact Hrun].
  unfold mbind at 1, read_board in Hrun. rewrite Hself in Hrun.
  unfold mbind at 1, lift in Hrun.
  destruct (to_index (to_cartesian origin)) as [i |] eqn:Hi;
    [| apply (Hstay TypeError); exact Hrun].
  pose proof (hex_index_range origin i Hi) as Hirange.
  cbn [with_index] in Hrun. rewrite get_field_valid in Hrun by exact Hirange.
  unfold mbind at 1 in Hrun. rewrite Hself in Hrun.
  unfold mbind at 1 in Hrun.
  destruct (to_index (to_cartesian (to_value m))) as [j |] eqn:Hj;
    [| apply (Hstay TypeError); exact Hrun].
  pose proof (hex_index_range (to_value m) j Hj) as Hjrange.
  cbn [with_index] in Hrun. rewrite get_field_valid in Hrun by exact Hjrange.
  destruct (put_field_at_keeps_teams b b i Hirange eq_refl eq_refl)
    as (Hidx1 & Hfish1 & Hone1 & Htwo1).
  pose proof (set_field_eval st self b (field_at b i) i Hself Hidx1 Hfish1) as Hset1.
  unfold run in Hset1. unfold mbind at 1 in Hrun. rewrite Hset1 in Hrun.
  set (b1 := put_field b (field_at b i) i) in *.
  destruct (put_field_at_keeps_teams b b1 j Hjrange Hone1 Htwo1)
    as (Hidx2 & Hfish2 & Hone2 & Htwo2).
  assert (Hself1 : <[self := OBoard b1]> st !! self = Some (OBoard b1))
    by (eapply lookup_written, Hself).
  pose proof (set_field_eval _ self b1 (field_at b j) j Hself1 Hidx2 Hfish2) as Hset2.
  unfold run in Hset2. unfold mbind at 1 in Hrun. rewrite Hset2 in Hrun.
  unfold mret in Hrun. injection Hrun as <- <-.
  exists (put_field b1 (field_at b j) j).
  split; [eapply lookup_written, Hself1 |].
  split; [exact Hone2 |]. split; [exact Htwo2 |].
  split; [| left; reflexivity].
  apply (included_trans b b1); apply included_put_field.
Qed.

Lemma move_keeps_team_masks_witness :
  let b := mkBoard 1 0 0 0 0 0 0 in
  let m := mkMove (Some (mkHex 0 0)) (mkHex 2 0) ONE in
  let st := [OBoard b; OMove m] in
  let st' := [OBoard (mkBoard 1 0 2 0 0 0 0); OMove m] in
  (st !! 0%nat = Some (OBoard b) /\ st !! 1%nat = Some (OMove m) /\
   run (move 0%nat 1%nat) st = (st', inr 0%nat)) /\
  exists b',
    st' !! 0%nat = Some (OBoard b') /\
    one b' = one b /\ two b' = two b /\
    board_is_empty (board_difference b b') = true /\
    (inr 0%nat = (inr 0%nat : E ref) \/
     exists e, (inr 0%nat : E ref) = inl e /\ st' = st).
Proof.
  intros b m st st'.
  assert (Hrun : run (move 0%nat 1%nat) st = (st', inr 0%nat))
    by (vm_compute; reflexivity).
  split; [repeat split; exact Hrun |].
  exact (move_keeps_team_masks st st' 0%nat 1%nat b m (inr 0%nat) eq_refl eq_refl Hrun).
Defined.


(** ** Completed transitions *)



Lemma update_slide_eval (st : store) (self mv : ref) (b : Board) (m : Move)
    (origin : HexCoordinate) (i j : Z) :
  st !! self = Some (OBoard b) -> st !! mv = Some (OMove m) ->
  from_value m = Some origin ->
  hex_index origin = Some i -> hex_index (to_value m) = Some j ->
  run (update self mv) st
  = (<[self := OBoard (with_team_mask (team m) b
                         (moved_mask (team_mask (team m) b) (Some i) j))]> st,
     inr tt).
Proof.
  intros Hself Hmove Hfrom Hi Hj.
  pose proof (hex_index_range _ _ Hi). pose proof (hex_index_range _ _ Hj).
  unfold run, update, mbind at 1, read_move. rewrite Hmove, Hfrom.
  fold (hex_index origin). fold (hex_index (to_value m)). rewrite Hi, Hj.
  destruct (team m); unfold mbind;
    rewrite (update_mask_eval st self b) by (assumption || lia);
    erewrite update_mask_eval by (eauto using lookup_written || lia);
    rewrite (list_insert_insert_eq st self); reflexivity.
Qed.

Lemma testbit_shiftl_1 (i k : Z) :
  0 <= i -> 0 <= k -> Z.testbit (Z.shiftl 1 i) k = (k =? i).
Proof.
  intros Hi Hk. rewrite Z.shiftl_spec, testbit_1 by lia.
  destruct (Z.eqb_spec (k - i) 0), (Z.eqb_spec k i); try lia; reflexivity.
Qed.

(** X24: bit by bit, [Board.update] on a slide sets the destination bit of
    the acting team and toggles its origin bit: the origin is cleared when a
    penguin of the team stood there and set when none did; every other bit of
    the mask keeps its value.  When origin and destination are the same cell
    the bit ends up set. *)
Theorem update_slide_bits (st : store) (self mv : ref) (b : Board) (m : Move)
    (origin : HexCoordinate) (i j : Z)
    (Hself : st !! self = Some (OBoard b))
    (Hmove : st !! mv = Some (OMove m))
    (Hfrom : from_value m = Some origin)
    (Hi : hex_index origin = Some i)
    (Hj : hex_index (to_value m) = Some j) :
  exists b',
    run (update self mv) st = (<[self := OBoard b']> st, inr tt) /\
    forall k, 0 <= k ->
      Z.testbit (team_mask (team m) b') k
      = if k =? j then true
        else if k =? i then negb (Z.testbit (team_mask (team m) b) i)
        else Z.testbit (team_mask (team m) b) k.
Proof.
  pose proof (hex_index_range _ _ Hi). pose proof (hex_index_range _ _ Hj).
  eexists. split; [apply (update_slide_eval st self mv b m origin i j); assumption |].
  intros k Hk.
  assert (Hmask : forall t v, team_mask t (with_team_mask t b v) = v)
    by (intros [] v; reflexivity).
  rewrite Hmask. unfold moved_mask.
  rewrite Z.lor_spec, Z.lxor_spec, !testbit_shiftl_1 by lia.
  destruct (Z.eqb_spec k j), (Z.eqb_spec k i); subst;
    rewrite ?orb_true_r, ?orb_false_r, ?xorb_false_r, ?xorb_true_r; reflexivity.
Qed.

Lemma update_slide_bits_witness :
  let b := mkBoard 0 0 0 2 0 0 0 in
  let m := mkMove (Some (mkHex 0 0)) (mkHex 2 0) ONE in
  let st := [OBoard b; OMove m] in
  (st !! 0%nat = Some (OBoard b) /\ st !! 1%nat = Some (OMove m) /\
   from_value m = Some (mkHex 0 0) /\
   hex_index (mkHex 0 0) = Some 0 /\ hex_index (to_value m) = Some 1) /\
  exists b',
    run (update 0%nat 1%nat) st = (<[0%nat := OBoard b']> st, inr tt) /\
    forall k, 0 <= k ->
      Z.testbit (team_mask (team m) b') k
      = if k =? 1 then true
        else if k =? 0 then negb (Z.testbit (team_mask (team m) b) 0)
        else Z.testbit (team_mask (team m) b) k.
Proof.
  intros b m st. split; [repeat split |].
  apply (update_slide_bits st 0%nat 1%nat b m (mkHex 0 0) 0 1); reflexivity.
Defined.

(** X25: [Board.update] is not all-or-nothing.  On a slide whose
    destination is off the board it raises [TypeError] after the origin bit
    of the acting team has been toggled; when the origin is off the board it
    raises before writing.  Both coordinates are taken within the range
    where their indices are computed exactly (and without overflow). *)
Theorem update_off_board (st : store) (self mv : ref) (b : Board) (m : Move)
    (origin : HexCoordinate)
    (Hself : st !! self = Some (OBoard b))
    (Hmove : st !! mv = Some (OMove m))
    (Hfrom : from_value m = Some origin)
    (Hcolumns : within_double_precision origin /\
                within_double_precision (to_value m))
    (Hoff : hex_index origin = None \/ hex_index (to_value m) = None) :
  run (update self mv) st
  = match hex_index origin with
    | Some i =>
        (<[self := OBoard (with_team_mask (team m) b
                             (Z.lxor (team_mask (team m) b) (Z.shiftl 1 i)))]> st,
         inl TypeError)
    | None => (st, inl TypeError)
    end.
Proof.
  unfold run, update, mbind at 1, read_move. rewrite Hmove, Hfrom.
  fold (hex_index origin). fold (hex_index (to_value m)).
  destruct (hex_index origin) as [i |] eqn:Hi.
  - destruct Hoff as [Hoff | Hoff]; [discriminate Hoff |]. rewrite Hoff.
    pose proof (hex_index_range _ _ Hi).
    destruct (team m); unfold mbind;
      rewrite (update_mask_eval st self b) by (assumption || lia);
      erewrite update_mask_None by (eauto using lookup_written);
      reflexivity.
  - destruct (team m); unfold mbind;
      rewrite (update_mask_None st self b) by assumption; reflexivity.
Qed.

Lemma update_off_board_witness :
  let b := mkBoard 128 0 0 0 0 0 0 in
  let m := mkMove (Some (mkHex 14 0)) (mkHex 16 0) ONE in
  let st := [OBoard b; OMove m] in
  (st !! 0%nat = Some (OBoard b) /\ st !! 1%nat = Some (OMove m) /\
   from_value m = Some (mkHex 14 0) /\
   (within_double_precision (mkHex 14 0) /\ within_double_precision (to_value m)) /\
   (hex_index (mkHex 14 0) = None \/ hex_index (to_value m) = None)) /\
  run (update 0%nat 1%nat) st
  = match hex_index (mkHex 14 0) with
    | Some i =>
        (<[0%nat := OBoard (with_team_mask (team m) b
                              (Z.lxor (team_mask (team m) b) (Z.shiftl 1 i)))]> st,
         inl TypeError)
    | None => (st, inl TypeError)
    end.
Proof.
  intros b m st.
  assert (Hoff : hex_index (mkHex 14 0) = None \/ hex_index (to_value m) = None)
    by (right; reflexivity).
  assert (Hc : within_double_precision (mkHex 14 0) /\
               within_double_precision (to_value m))
    by (unfold within_double_precision; cbn; lia).
  split; [split; [reflexivity | split; [reflexivity | split; [reflexivity |
            split; [exact Hc | exact Hoff]]]] |].
  exact (update_off_board st 0%nat 1%nat b m (mkHex 14 0) eq_refl eq_refl eq_refl
           Hc Hoff).
Defined.

(** ** Fish tallies *)

(** X26: [add_fish] adds to the tally of the given team, in place: it
    returns its receiver, a later [get_fish_by_team] for that team gives the
    old tally plus the fish, and the tally of the opponent is as before. *)
Theorem add_fish_then_get_fish_by_team (st : store) (self : ref) (f : Fishes)
    (t : Team) (n : Z)
    (Hself : st !! self = Some (OFishes f)) :
  exists (st' : store) (mine other : Z),
    run (get_fish_by_team self t) st = (st, inr mine) /\
    run (get_fish_by_team self (opponent t)) st = (st, inr other) /\
    run (add_fish self t n) st = (st', inr self) /\
    (forall l, l <> self -> st' !! l = st !! l) /\
    run (get_fish_by_team self t) st' = (st', inr (mine + n)) /\
    run (get_fish_by_team self (opponent t)) st' = (st', inr other).
Proof.
  assert (Hlen : (self < length st)%nat) by (eapply lookup_lt_Some, Hself).
  unfold run, add_fish, get_fish_by_team, mbind, read_fishes, write, mret, opponent.
  rewrite Hself.
  destruct (name t); cbn [name]; eexists _, _, _;
    rewrite list_lookup_insert_eq by exact Hlen;
    (repeat split; try reflexivity);
    intros l Hl; apply list_lookup_insert_ne; congruence.
Qed.

Lemma add_fish_then_get_fish_by_team_witness :
  let st := [OFishes (mkFishes 3 5)] in
  st !! 0%nat = Some (OFishes (mkFishes 3 5)) /\
  exists (st' : store) (mine other : Z),
    run (get_fish_by_team 0%nat (mkTeam TWO [] 0)) st = (st, inr mine) /\
    run (get_fish_by_team 0%nat (opponent (mkTeam TWO [] 0))) st = (st, inr other) /\
    run (add_fish 0%nat (mkTeam TWO [] 0) 4) st = (st', inr 0%nat) /\
    (forall l, l <> 0%nat -> st' !! l = st !! l) /\
    run (get_fish_by_team 0%nat (mkTeam TWO [] 0)) st' = (st', inr (mine + 4)) /\
    run (get_fish_by_team 0%nat (opponent (mkTeam TWO [] 0))) st' = (st', inr other).
Proof.
  intros st. split; [reflexivity |].
  apply (add_fish_then_get_fish_by_team st 0%nat (mkFishes 3 5) (mkTeam TWO [] 0) 4).
  reflexivity.
Defined.

(** ** All slides from a cell *)

Lemma get_directive_moves_eval (b : Board) (index : Z) (d : Vector) (t : TeamEnum) :
  0 <= index <= 63 -> In d directions ->
  exists n : nat,
    (n <= 7)%nat /\
    get_directive_moves b index d t
    = inr (if has_bit (team_mask t b) index
           then map (slide (to_hex (cell index)) d t) (seq 1 n) else []) /\
    (forall k, (1 <= k <= n)%nat ->
       landing_cell b (ray_cell (to_hex (cell index)) d k) = true).
Proof.
  intros Hindex Hd. set (origin := to_hex (cell index)).
  assert (Horigin : hex_index origin = Some index).
  { unfold hex_index, origin. rewrite to_cartesian_to_hex. apply cell_index, Hindex. }
  destruct (directive_loop_ray b origin d t (to_hex_aligned _) Hd
              ray_fuel 1 [] index Horigin) as (n & Hn & Hloop & Hall & _);
    [lia | unfold ray_fuel; lia |].
  exists n. split; [lia |]. split; [| exact Hall].
  unfold get_directive_moves, get_directive_moves_fuel.
  rewrite from_index_valid by exact Hindex. cbn [bind]. fold (cell index). fold origin.
  rewrite is_team_valid by lia. cbn [bind].
  destruct (has_bit (team_mask t b) index); [| reflexivity].
  unfold step_index. rewrite from_index_valid by exact Hindex.
  cbn [bind]. fold (cell index). fold origin.
  rewrite (ray_cell_first origin d).
  fold (hex_index (ray_cell origin d 1)). unfold ret. cbn [bind].
  rewrite Hloop. replace (S n - 1)%nat with n by lia. reflexivity.
Qed.

(** X27: every move of [possible_moves_from] starts at the given index,
    is made by the given team and lands on a cell of one of the six rays
    such that this cell and every cell before it on the ray is on the board,
    unoccupied and with fish.  There are at most 42 moves, none when the
    index holds no penguin of the team, and the loop bound of the embedding
    is not reached. *)
Theorem possible_moves_from_sound (b : Board) (index : Z) (t : TeamEnum)
    (Hindex : 0 <= index <= 63) :
  exists (c : CartesianCoordinate) (l : list Move),
    from_index index = inr c /\
    possible_moves_from b index t = inr l /\
    (length l <= 42)%nat /\
    (is_team b t index = inr false -> l = []) /\
    forall m, In m l ->
      from_value m = Some (to_hex c) /\ team m = t /\
      is_team b t index = inr true /\
      exists (d : Vector) (k : nat),
        In d directions /\ (1 <= k <= 7)%nat /\
        to_value m = ray_cell (to_hex c) d k /\
        forall j, (1 <= j <= k)%nat ->
          landing_cell b (ray_cell (to_hex c) d j) = true.
Proof.
  exists (cell index).
  assert (Hgen : forall dirs, (forall d, In d dirs -> In d directions) ->
    exists l,
      flat_mapE (fun d => get_directive_moves b index d t) dirs = inr l /\
      (length l <= 7 * length dirs)%nat /\
      (has_bit (team_mask t b) index = false -> l = []) /\
      forall m, In m l ->
        from_value m = Some (to_hex (cell index)) /\ team m = t /\
        has_bit (team_mask t b) index = true /\
        exists (d : Vector) (k : nat),
          In d directions /\ (1 <= k <= 7)%nat /\
          to_value m = ray_cell (to_hex (cell index)) d k /\
          forall j, (1 <= j <= k)%nat ->
            landing_cell b (ray_cell (to_hex (cell index)) d j) = true).
  { induction dirs as [| d dirs IH]; intros Hsub.
    - exists []. split; [reflexivity |]. split; [cbn; lia |].
      split; [reflexivity | intros m []].
    - destruct (IH (fun d' H => Hsub d' (or_intror H))) as (l & Hl & Hlen & Hnone & Hall).
      destruct (get_directive_moves_eval b index d t Hindex (Hsub d (or_introl eq_refl)))
        as (n & Hn & Hd & Hland).
      cbn [flat_mapE]. rewrite Hd, Hl. cbn [bind].
      eexists. split; [reflexivity |]. split; [| split].
      + rewrite length_app. cbn [length].
        destruct (has_bit (team_mask t b) index);
          [rewrite length_map, length_seq | cbn [length]]; lia.
      + intros Hbit. rewrite Hbit, (Hnone Hbit). reflexivity.
      + intros m Hm. apply in_app_or in Hm as [Hm | Hm]; [| apply Hall, Hm].
        destruct (has_bit (team_mask t b) index) eqn:Hbit; [| destruct Hm].
        apply in_map_iff in Hm as (k & <- & Hk). apply in_seq in Hk.
        split; [reflexivity |]. split; [reflexivity |]. split; [reflexivity |].
        exists d, k. split; [apply Hsub; left; reflexivity |].
        split; [lia |]. split; [reflexivity |].
        intros j Hj. apply Hland. lia. }
  destruct (Hgen directions (fun d H => H)) as (l & Hl & Hlen & Hnone & Hall).
  exists l. split; [apply from_index_valid, Hindex |].
  split; [exact Hl |]. split; [cbn [directions length] in Hlen; lia |].
  rewrite is_team_valid by lia. split.
  - intros [= Hbit]. apply Hnone, Hbit.
  - intros m Hm. destruct (Hall m Hm) as (H1 & H2 & H3 & H4).
    rewrite H3. repeat split; assumption.
Qed.

Lemma possible_moves_from_sound_witness :
  0 <= 0 <= 63 /\
  exists (c : CartesianCoordinate) (l : list Move),
    from_index 0 = inr c /\
    possible_moves_from scenarioA 0 ONE = inr l /\
    (length l <= 42)%nat /\
    (is_team scenarioA ONE 0 = inr false -> l = []) /\
    forall m, In m l ->
      from_value m = Some (to_hex c) /\ team m = ONE /\
      is_team scenarioA ONE 0 = inr true /\
      exists (d : Vector) (k : nat),
        In d directions /\ (1 <= k <= 7)%nat /\
        to_value m = ray_cell (to_hex c) d k /\
        forall j, (1 <= j <= k)%nat ->
          landing_cell scenarioA (ray_cell (to_hex c) d j) = true.
Proof.
  split; [lia |].
  apply (possible_moves_from_sound scenarioA 0 ONE). lia.
Defined.

(** ** Constructed states *)

Lemma in_placements (b : Board) (t : TeamEnum) (mv : Move) :
  In mv (placements b t) ->
  from_value mv = None /\ team mv = t /\
  exists i, 0 <= i <= 63 /\ to_value mv = coordinate (field_at b i) /\
            penguin (field_at b i) = None /\ fish (field_at b i) = 1.
Proof.
  unfold placements, fields. intros H.
  apply in_map_iff in H as (f & <- & Hf). apply filter_In in Hf as [Hf Hp].
  apply in_map_iff in Hf as ([x y] & <- & Hxy). apply in_scan_order in Hxy.
  cbn [fst snd] in *. split; [reflexivity |]. split; [reflexivity |].
  exists (y * 8 + x). unfold placeable in Hp.
  destruct (penguin (field_at b (y * 8 + x))); [discriminate |].
  apply Z.eqb_eq in Hp. repeat split; lia.
Qed.

(** X28: every state the constructor returns is in the placement phase.
    Its current team has fewer than four penguins on the board, and each of
    its legal moves is a placement by the current team onto a cell without
    penguin and with exactly one fish; no state offers a slide. *)
Theorem constructed_state_offers_placements_only (st st1 : store) (bref : ref)
    (n : Z) (start : Team) (fref : ref) (last : option ref) (self : ref)
    (s : GameState)
    (Hinit : run (GameState_init bref n start fref last) st = (st1, inr self))
    (Hself : st1 !! self = Some (OGameState s)) :
  exists b : Board,
    st1 !! board s = Some (OBoard b) /\
    (exists ps, get_teams_penguins b (name (current_team s)) = inr ps /\
                (length ps < 4)%nat) /\
    forall m, In m (possible_moves s) ->
      exists (mv : Move) (f : Field) (i : Z),
        st1 !! m = Some (OMove mv) /\
        from_value mv = None /\ team mv = name (current_team s) /\
        get_field b i = inr f /\ to_value mv = coordinate f /\
        penguin f = None /\ fish f = 1.
Proof.
  destruct (GameState_init_constructed _ _ _ _ _ _ _ _ Hinit) as (b & s' & C).
  pose proof (c_self _ _ _ _ _ _ _ _ _ _ C) as Hs'. rewrite Hself in Hs'.
  injection Hs' as <-.
  destruct (c_attributes _ _ _ _ _ _ _ _ _ _ C) as (_ & -> & _).
  exists b. split; [exact (c_board_kept _ _ _ _ _ _ _ _ _ _ C) |]. split.
  - eexists. split; [apply get_teams_penguins_valid |].
    exact (c_current_placing _ _ _ _ _ _ _ _ _ _ C).
  - intros m Hm.
    destruct (Forall2_In_l _ _ _ _ (c_moves _ _ _ _ _ _ _ _ _ _ C) Hm)
      as (mv & Hmv & Hlook).
    apply in_placements in Hmv as (Hfrom & Hteam & i & Hi & Hto & Hpen & Hfish).
    exists mv, (field_at b i), i.
    rewrite get_field_valid by exact Hi. repeat split; assumption.
Qed.

Lemma constructed_state_offers_placements_only_witness :
  let st := [OBoard (mkBoard 0 0 0 1 0 0 0); OFishes (mkFishes 0 0)] in
  let init := run (GameState_init 0%nat 0 (mkTeam ONE [] 0) 1%nat None) st in
  let st1 := fst init in
  let s := mkGameState (mkTeam ONE [] 0) 0%nat 0 0 (mkTeam ONE [] 0) (mkTeam TWO [] 0)
                       None 1%nat [] [4%nat] in
  (init = (st1, inr 5%nat) /\ st1 !! 5%nat = Some (OGameState s)) /\
  exists b : Board,
    st1 !! board s = Some (OBoard b) /\
    (exists ps, get_teams_penguins b (name (current_team s)) = inr ps /\
                (length ps < 4)%nat) /\
    forall m, In m (possible_moves s) ->
      exists (mv : Move) (f : Field) (i : Z),
        st1 !! m = Some (OMove mv) /\
        from_value mv = None /\ team mv = name (current_team s) /\
        get_field b i = inr f /\ to_value mv = coordinate f /\
        penguin f = None /\ fish f = 1.
Proof.
  intros st init st1 s.
  assert (Hinit : init = (st1, inr 5%nat)) by (vm_compute; reflexivity).
  assert (Hself : st1 !! 5%nat = Some (OGameState s)) by (vm_compute; reflexivity).
  split; [split; assumption |].
  exact (constructed_state_offers_placements_only st st1 0%nat 0 (mkTeam ONE [] 0)
           1%nat None 5%nat s Hinit Hself).
Defined.

(** ** Vector arithmetic and teams *)

(** X29: subtracting a vector undoes adding it, on vectors and on hex
    coordinates; [are_identically] holds exactly for equal vectors; the cross
    product of a vector with any multiple of it is 0 and the dot product of a
    vector with itself is 0 only for the null vector. *)
Theorem vector_arithmetic (h : HexCoordinate) (v w : Vector) (k : Z) :
  subtraction (addition v w) w = v /\
  subtract_vector (add_vector h v) v = h /\
  add_vector (subtract_vector h v) v = h /\
  (are_identically v w = true <-> v = w) /\
  cross_product v (scalar_product v k) = 0 /\
  (dot_product v v = 0 <-> v = mkVector 0 0).
Proof.
  destruct h as [x y], v as [a b], w as [c d].
  unfold subtract_vector, add_vector, hex_to_vector, are_identically,
    cross_product, dot_product, scalar_product.
  cbv zeta. unfold subtraction, addition. cbn [d_x d_y hx hy].
  split; [f_equal; lia |]. split; [f_equal; lia |]. split; [f_equal; lia |].
  split; [| split; [ring |]].
  - rewrite andb_true_iff, !Z.eqb_eq. split; [intros [-> ->]; reflexivity |].
    intros [= -> ->]. split; reflexivity.
  - split; [| intros [= -> ->]; reflexivity].
    intros H. assert (a = 0 /\ b = 0) as [-> ->] by nia. reflexivity.
Qed.

(** X30: [opponent] names the other team and starts it with no penguins
    and no fish, so taking the opponent twice gives the team back only when
    it had no penguins and no fish itself. *)
Theorem opponent_twice (t : Team) :
  name (opponent t) <> name t /\
  name (opponent (opponent t)) = name t /\
  penguins (opponent t) = [] /\ team_fish (opponent t) = 0 /\
  (opponent (opponent t) = t <-> penguins t = [] /\ team_fish t = 0).
Proof.
  destruct t as [[] ps f]; unfold opponent; cbn [name penguins team_fish];
    (split; [discriminate |]); (split; [reflexivity |]);
    (split; [reflexivity |]); (split; [reflexivity |]);
    (split; [intros [= <- <-]; split; reflexivity | intros [-> ->]; reflexivity]).
Qed.
